(** * parsli: the "references" dataset reader

    A shallow embedding of [parsli/dataset_readers/references.py] and the
    properties of its reference-list parser, its span-labelling loop, its
    constructor and its instance builder. *)

From Stdlib Require Import NArith Ascii String.
From stdpp Require Import base option list.

Set Default Proof Using "Type".

(** ** Python strings

    A Python [str] is a sequence of Unicode code points.  Literals are written
    as UTF-8 text and decoded once. *)

Module PyStr.

Definition char : Type := N.
Definition str : Type := list char.

Fixpoint bytes_of (s : string) : list N :=
  match s with
  | EmptyString => []
  | String a s' => N_of_ascii a :: bytes_of s'
  end.

(** Decoding of well-formed UTF-8 (one to four bytes per code point). *)
Fixpoint utf8_decode (bs : list N) : str :=
  match bs with
  | [] => []
  | b0 :: r0 =>
      if (b0 <? 128)%N then b0 :: utf8_decode r0 else
      match r0 with
      | [] => []
      | b1 :: r1 =>
          if (b0 <? 224)%N
          then ((b0 mod 32) * 64 + b1 mod 64)%N :: utf8_decode r1 else
          match r1 with
          | [] => []
          | b2 :: r2 =>
              if (b0 <? 240)%N
              then ((b0 mod 16) * 4096 + (b1 mod 64) * 64 + b2 mod 64)%N
                     :: utf8_decode r2 else
              match r2 with
              | [] => []
              | b3 :: r3 =>
                  ((b0 mod 8) * 262144 + (b1 mod 64) * 4096
                   + (b2 mod 64) * 64 + b3 mod 64)%N :: utf8_decode r3
              end
          end
      end
  end.

Definition py (s : string) : str := utf8_decode (bytes_of s).

(** [s.lstrip(chars)], [s.rstrip(chars)] and [s.strip(chars)]: drop the
    leading (trailing, both) characters that occur in [chars]. *)
Fixpoint lstrip (chars s : str) : str :=
  match s with
  | [] => []
  | c :: s' => if bool_decide (c ∈ chars) then lstrip chars s' else s
  end.

Definition rstrip (chars s : str) : str := reverse (lstrip chars (reverse s)).

Definition strip (chars s : str) : str := rstrip chars (lstrip chars s).

(** [s.replace(old, new)] for a one-character [old]. *)
Fixpoint replace (old : char) (new s : str) : str :=
  match s with
  | [] => []
  | c :: s' =>
      (if bool_decide (c = old) then new else [c]) ++ replace old new s'
  end.

(** [s.split(sep)] for a one-character [sep]; never returns the empty
    list: [''.split(sep) == ['']]. *)
Fixpoint split (sep : char) (s : str) : list str :=
  match s with
  | [] => [[]]
  | c :: s' =>
      if bool_decide (c = sep) then [] :: split sep s'
      else match split sep s' with
           | [] => [[c]]
           | w :: ws => (c :: w) :: ws
           end
  end.

(** [sep.join(parts)]. *)
Fixpoint join (sep : str) (parts : list str) : str :=
  match parts with
  | [] => []
  | [p] => p
  | p :: ps => p ++ sep ++ join sep ps
  end.

End PyStr.
Import PyStr.

Arguments py _%_string : simpl never.

(** The two characters the reader treats specially: the full-width semicolon
    that separates references, and the bar that marks the trial a reference
    comes from. *)
Definition SEP : char := 65307%N.
Definition BAR : char := 124%N.

(** ** Exceptions and the result of a fallible computation *)

Inductive exn : Type :=
| ConfigurationError   (* allennlp.common.checks.ConfigurationError *)
| InvalidTagSequence   (* allennlp ... span_utils.InvalidTagSequence *)
| IndexError
| TypeError
| OSError
| DanglingReference.   (* no Python exception: an address never allocated *)

Inductive result (A : Type) : Type :=
| Ok (a : A)
| Raise (e : exn).
Arguments Ok {A} a.
Arguments Raise {A} e.

#[global] Instance result_ret : MRet result := λ A a, Ok a.
#[global] Instance result_bind : MBind result := λ A B f m,
  match m with
  | Ok a => f a
  | Raise e => Raise e
  end.

(** ** Python lists: slices, item and slice assignment, [range] *)

Module PyList.
Section ops.
Context {A : Type}.

(** [l[lo:hi]] for non-negative bounds. *)
Definition slice (l : list A) (lo hi : nat) : list A := drop lo (take hi l).

(** [l[i] = x]; Python raises IndexError out of range. *)
Definition setitem (l : list A) (i : nat) (x : A) : result (list A) :=
  if decide (i < length l) then Ok (<[i:=x]> l) else Raise IndexError.

(** [l[lo:hi] = v] for non-negative bounds: both bounds are clipped to
    the length, an upper bound below the lower one counts as the lower
    one, and [v] may have any length. *)
Definition setslice (l : list A) (lo hi : nat) (v : list A) : list A :=
  take lo l ++ v ++ drop (lo `max` hi) l.
End ops.

(** [range(lo, hi)]. *)
Definition range (lo hi : nat) : list nat := seq lo (hi - lo).
End PyList.
Import PyList.

(** [for x in xs: body], threading the loop state through a monad. *)
Fixpoint for_each {M : Type → Type} `{!MRet M, !MBind M} {X S : Type}
    (xs : list X) (body : X → S → M S) (s : S) : M S :=
  match xs with
  | [] => mret s
  | x :: xs' => s' ← body x s; for_each xs' body s'
  end.

(** ** The data of the reader *)

(** Tags are the Python strings "O", "B", "I" and, after recoding, "L" and
    "U". *)
Inductive tag : Type := TagO | TagB | TagI | TagL | TagU.

#[global] Instance tag_eq_dec : EqDecision tag.
Proof. solve_decision. Defined.

Definition tag_text (t : tag) : str :=
  match t with
  | TagO => py "O" | TagB => py "B" | TagI => py "I"
  | TagL => py "L" | TagU => py "U"
  end.

(** An allennlp [Token]: its text and its character offset; the labelling
    reads [text] only. *)
Record Token : Type := { text : str; idx : option nat }.

(** A cell of the data frame: a string, or the float NaN that pandas puts
    where the csv has no value. *)
Inductive cell : Type := CellStr (s : str) | CellNaN.

(** [str(x)] on a cell; [str(float('nan'))] is the text nan. *)
Definition str_of_cell (c : cell) : str :=
  match c with
  | CellStr s => s
  | CellNaN => py "nan"
  end.

(** A row of the csv file, [line] in [_read]: only these two columns are
    read. *)
Record Row : Type := { references_all : cell; full_text : str }.

Inductive TokenIndexer : Type :=
| SingleIdTokenIndexer
| OtherTokenIndexer (name : str).

Record ReferencesDatasetReader : Type := {
  _token_indexers : list (str * TokenIndexer);
  coding_scheme : option str;
  label_namespace : str;
  _original_coding_scheme : str;
  _spacy_model : str
}.

(** ** The reference-list parser ([_read], line 118)

    [str(line.references_all).strip("；").replace("|", "").split("；")] *)
Definition parse_references (c : cell) : list str :=
  split SEP (replace BAR (py "") (strip [SEP] (str_of_cell c))).

(** ** The labelling loop ([_read], lines 121-126) *)

(** ["".join(token.text for token in tokens[i:j])] *)
Definition span_text (tokens : list Token) (i j : nat) : str :=
  join (py "") (text <$> slice tokens i j).

(** The body of the inner loop (lines 124-126), on the value of the list
    [tags]; [label_in_place] below is the same loop on the list object, as
    Python runs it. *)
Definition label_span (refs : list str) (tokens : list Token) (i j : nat)
    (tags : list tag) : result (list tag) :=
  if bool_decide (span_text tokens i j ∈ refs) then
    tags ← setitem tags i TagB;
    mret (setslice tags (i + 1) j (replicate (j - i - 1) TagI))
  else mret tags.

(** The two nested loops. *)
Definition label_loops (refs : list str) (tokens : list Token)
    (tags : list tag) : result (list tag) :=
  for_each (range 0 (length tokens)) (λ i,
    for_each (range (i + 1) (length tokens + 1)) (λ j,
      label_span refs tokens i j)) tags.

(** Lines 121-126 as a whole: the tags of one tokenized sentence. *)
Definition label_tokens (refs : list str) (tokens : list Token)
    : result (list tag) :=
  label_loops refs tokens ((λ _, TagO) <$> tokens).

(** ** Recoding to BIOUL *)

(** Modelled from the spec: [to_bioul] is imported from allennlp and is not
    part of the repository.  Its model follows the tag-encoding converter of
    the specification (section 4.3 and the glossary): in a sequence over
    O/B/I read as IOB1, a run is opened by "B", or by an "I" that continues
    no run, and extended by every following "I"; a run of one token becomes
    Unit and a longer one Begin, Inside ..., Last; "O" stays.  [run] counts
    the tags of the run read so far.  Any other label is rejected, and so is
    an encoding other than IOB1 or BIO; BIO rejects an "I" that continues no
    run. *)
Definition recode_run (run : nat) : list tag :=
  match run with
  | 0 => []
  | 1 => [TagU]
  | S (S k) => TagB :: replicate k TagI ++ [TagL]
  end.

Fixpoint to_bioul_from (bio : bool) (run : nat) (tag_sequence : list tag)
    : result (list tag) :=
  match tag_sequence with
  | [] => mret (recode_run run)
  | TagO :: rest =>
      out ← to_bioul_from bio 0 rest; mret (recode_run run ++ TagO :: out)
  | TagI :: rest =>
      if bio && bool_decide (run = 0) then Raise InvalidTagSequence
      else to_bioul_from bio (S run) rest
  | TagB :: rest =>
      out ← to_bioul_from bio 1 rest; mret (recode_run run ++ out)
  | _ => Raise InvalidTagSequence
  end.

Definition to_bioul (tag_sequence : list tag) (encoding : str)
    : result (list tag) :=
  if bool_decide (encoding = py "IOB1") then to_bioul_from false 0 tag_sequence
  else if bool_decide (encoding = py "BIO") then
         to_bioul_from true 0 tag_sequence
  else Raise ConfigurationError.

(** ** The world the reader runs in: what it has loaded and read, and the
    tag lists it has created, each a mutable object with an address. *)

Inductive event : Type :=
| LoadSpacyModel (name : str)
| ReadCsv (path : str).

Definition addr : Type := nat.

Record world : Type := World { log : list event; heap : list (list tag) }.

Definition Py (A : Type) : Type := world → result A * world.

#[global] Instance Py_ret : MRet Py := λ A a w, (Ok a, w).
#[global] Instance Py_bind : MBind Py := λ A B f m w,
  match m w with
  | (Ok a, w') => f a w'
  | (Raise e, w') => (Raise e, w')
  end.

Definition raise {A : Type} (e : exn) : Py A := λ w, (Raise e, w).
Definition lift {A : Type} (r : result A) : Py A := λ w, (r, w).
Definition emit (e : event) : Py unit :=
  λ w, (Ok (), World (log w ++ [e]) (heap w)).

(** A new list object. *)
Definition alloc (l : list tag) : Py addr :=
  λ w, (Ok (length (heap w)), World (log w) (heap w ++ [l])).
Definition load (a : addr) : Py (list tag) :=
  λ w, match heap w !! a with
       | Some l => (Ok l, w)
       | None => (Raise DanglingReference, w)
       end.
Definition store (a : addr) (l : list tag) : Py unit :=
  λ w, (Ok (), World (log w) (<[a:=l]> (heap w))).

(** [tags[i] = x] and [tags[lo:hi] = v] on the object at [tags]. *)
Definition heap_setitem (tags : addr) (i : nat) (x : tag) : Py unit :=
  l ← load tags; l' ← lift (setitem l i x); store tags l'.
Definition heap_setslice (tags : addr) (lo hi : nat) (v : list tag) : Py unit :=
  l ← load tags; store tags (setslice l lo hi v).

(** ** The constructor ([__init__], lines 86-107)

    The defaults of the keyword arguments are [None], "IOB1" and "labels".
    The call of the base-class constructor and the keyword arguments it
    takes are outside the model.  Building the spaCy tokenizer and the
    spaCy sentence splitter loads the spaCy model, once each. *)
Definition __init__ (token_indexers : option (list (str * TokenIndexer)))
    (coding_scheme : option str) (label_namespace : str)
    : Py ReferencesDatasetReader :=
  let _token_indexers :=
    match token_indexers with
    | None | Some [] => [(py "tokens", SingleIdTokenIndexer)]
    | Some d => d
    end in
  if bool_decide (coding_scheme ∉ [Some (py "IOB1"); Some (py "BIOUL")]) then
    raise ConfigurationError
  else
    let _spacy_model := py "zh_core_web_sm" in
    _ ← emit (LoadSpacyModel _spacy_model);
    _ ← emit (LoadSpacyModel _spacy_model);
    mret {| _token_indexers := _token_indexers;
            coding_scheme := coding_scheme;
            label_namespace := label_namespace;
            _original_coding_scheme := py "IOB1";
            _spacy_model := _spacy_model |}.

(** ** The instance builder ([text_to_instance], lines 129-146) *)

Record TextField : Type :=
  { field_tokens : list Token; token_indexers : list (str * TokenIndexer) }.

Record SequenceLabelField : Type :=
  { labels : addr; sequence_field : TextField; field_namespace : str }.

Record Instance : Type := {
  fields_tokens : TextField;
  fields_metadata : list str;
  fields_tags : SequenceLabelField
}.

(** Modelled from the spec: the label field is an allennlp class, not part
    of the repository.  Section 4.4 of the specification gives it one
    consistency check, tags length == tokens length; it fails with a
    configuration error.  The field keeps the list object it is given. *)
Definition new_SequenceLabelField (labels : addr) (sequence_field : TextField)
    (label_namespace : str) : Py SequenceLabelField :=
  l ← load labels;
  if decide (length l = length (field_tokens sequence_field)) then
    mret {| labels := labels; sequence_field := sequence_field;
            field_namespace := label_namespace |}
  else raise ConfigurationError.

(** [tags] defaults to [None]; both the recoder and the label field fail on
    it with a TypeError. *)
Definition text_to_instance (self : ReferencesDatasetReader)
    (tokens : list Token) (tags : option addr) : Py Instance :=
  let sequence :=
    {| field_tokens := tokens; token_indexers := _token_indexers self |} in
  tags ← (if bool_decide (coding_scheme self = Some (py "BIOUL")) then
            match tags with
            | None => raise TypeError
            | Some a =>
                old ← load a;
                new ← lift (to_bioul old (_original_coding_scheme self));
                a' ← alloc new;
                mret (Some a')
            end
          else mret tags);
  match tags with
  | None => raise TypeError
  | Some a =>
      field ← new_SequenceLabelField a sequence (label_namespace self);
      mret {| fields_tokens := sequence;
              fields_metadata := text <$> tokens;
              fields_tags := field |}
  end.

(** ** Reading a file ([_read], lines 110-127) *)

(** The labelling loop as [_read] runs it, on the list object at [tags]. *)
Definition label_in_place (refs : list str) (tokens : list Token)
    (tags : addr) : Py unit :=
  for_each (range 0 (length tokens)) (λ i,
    for_each (range (i + 1) (length tokens + 1)) (λ j _,
      if bool_decide (span_text tokens i j ∈ refs) then
        _ ← heap_setitem tags i TagB;
        heap_setslice tags (i + 1) j (replicate (j - i - 1) TagI)
      else mret ())) ().

Section read.
(** The library calls of [_read]: the cache redirection of a path, the
    csv parser, and the spaCy sentence splitter and tokenizer the
    constructor has built. *)
Context (cached_path : str → str) (read_csv : str → result (list Row))
        (split_sentences : str → list str) (tokenize : str → list Token).

(** The body of the sentence loop; the instance is added to those
    yielded so far. *)
Definition read_sentence (self : ReferencesDatasetReader) (refs : list str)
    (sentence : str) (yielded : list Instance) : Py (list Instance) :=
  let tokens := tokenize sentence in
  tags ← alloc ((λ _, TagO) <$> tokens);
  _ ← label_in_place refs tokens tags;
  inst ← text_to_instance self tokens (Some tags);
  mret (yielded ++ [inst]).

(** The body of the loop over the rows. *)
Definition read_line (self : ReferencesDatasetReader) (line : Row)
    (yielded : list Instance) : Py (list Instance) :=
  let refs := parse_references (references_all line) in
  for_each (split_sentences (full_text line)) (read_sentence self refs)
           yielded.

Definition _read (self : ReferencesDatasetReader) (file_path : str)
    : Py (list Instance) :=
  let file_path := cached_path file_path in
  _ ← emit (ReadCsv file_path);
  df ← lift (read_csv file_path);
  for_each df (read_line self) [].
End read.

(** ** The labelling algorithm in the words of the specification

    Section 4.2: one "O" per token; then, for every start index [i] in
    ascending order and every end index [j > i] in ascending order, if the
    concatenation of the token texts from [i] to [j] (exclusive) is in the
    reference list, token [i] is marked "B" and tokens [i+1 .. j-1] are
    marked "I"; a later span overwrites the marks of an earlier one. *)

Definition all_spans (n : nat) : list (nat * nat) :=
  i ← seq 0 n; j ← seq (i + 1) (n - i); [(i, j)].

Definition is_reference (refs texts : list str) (i j : nat) : bool :=
  bool_decide (concat (slice texts i j) ∈ refs).

Definition write_span (i j : nat) (tags : list tag) : list tag :=
  imap (λ k t, if decide (k = i) then TagB
               else if decide (i < k < j) then TagI else t) tags.

Definition mark (refs texts : list str) (tags : list tag) (span : nat * nat)
    : list tag :=
  if is_reference refs texts span.1 span.2
  then write_span span.1 span.2 tags else tags.

Definition reference_tags (refs texts : list str) : list tag :=
  foldl (mark refs texts) (replicate (length texts) TagO)
        (all_spans (length texts)).

(** The spans of a sentence that match the reference list, and what they
    say about one position: a matching span starts there, or a matching
    span that starts before [below] has it in its interior. *)
Definition matching (refs texts : list str) (i j : nat) : Prop :=
  i < j ≤ length texts ∧ is_reference refs texts i j = true.

Definition starts_span (refs texts : list str) (k : nat) : bool :=
  existsb (is_reference refs texts k) (range (k + 1) (length texts + 1)).

Definition covers (refs texts : list str) (k i : nat) : bool :=
  existsb (λ j, bool_decide (k < j) && is_reference refs texts i j)
          (range (i + 1) (length texts + 1)).

Definition inside_span (refs texts : list str) (below k : nat) : bool :=
  existsb (covers refs texts k) (range 0 (below `min` k)).

(** The tag of position [k] in closed form. *)
Definition tag_at (refs texts : list str) (k : nat) : tag :=
  if starts_span refs texts k then TagB
  else if inside_span refs texts k k then TagI
  else TagO.

(** A maximal span of a tag sequence: a "B" at [k], then "I" up to [e]
    (exclusive), and no "I" at [e]. *)
Definition maximal_span (tags : list tag) (k e : nat) : Prop :=
  tags !! k = Some TagB ∧ k < e ≤ length tags ∧
  (∀ m, k < m < e → tags !! m = Some TagI) ∧ tags !! e ≠ Some TagI.

(** Well-formed IOB1 in the sense of claim C8: an "I" is never the first
    tag and never follows an "O". *)
Definition inside_follows_span (tags : list tag) : Prop :=
  ∀ k, tags !! k = Some TagI →
       ∃ k', k = S k' ∧ (tags !! k' = Some TagB ∨ tags !! k' = Some TagI).

(** The tag sequences over "O", "B" and "I". *)
Definition iob (tags : list tag) : Prop :=
  Forall (λ t, t = TagO ∨ t = TagB ∨ t = TagI) tags.

(** ** Spans of a tag sequence, and the way back from BIOUL *)

(** Modelled from the spec: the repository has no decoder of either scheme
    and no conversion from BIOUL back to IOB1.  The glossary fixes both
    readings: IOB1 has Begin, Inside and Outside, so a span starts at a "B",
    or at an "I" that continues no span, and runs through the "I" that
    follow; BIOUL also marks the single-token span (Unit) and the last
    token of a longer span (Last).  Spans are pairs of a start and an
    exclusive end; [k] is the position of the first tag and [start] the
    start of the span that is open. *)
Definition close_span (start : option nat) (k : nat) : list (nat * nat) :=
  match start with
  | Some s => [(s, k)]
  | None => []
  end.

Fixpoint iob1_spans_from (k : nat) (start : option nat) (tags : list tag)
    : list (nat * nat) :=
  match tags with
  | [] => close_span start k
  | TagB :: rest => close_span start k ++ iob1_spans_from (S k) (Some k) rest
  | TagI :: rest =>
      iob1_spans_from (S k) (Some (default k start)) rest
  | _ :: rest => close_span start k ++ iob1_spans_from (S k) None rest
  end.

Definition iob1_spans (tags : list tag) : list (nat * nat) :=
  iob1_spans_from 0 None tags.

Fixpoint bioul_spans_from (k : nat) (start : option nat) (tags : list tag)
    : list (nat * nat) :=
  match tags with
  | [] => []
  | TagU :: rest => (k, S k) :: bioul_spans_from (S k) None rest
  | TagB :: rest => bioul_spans_from (S k) (Some k) rest
  | TagI :: rest => bioul_spans_from (S k) start rest
  | TagL :: rest => close_span start (S k) ++ bioul_spans_from (S k) None rest
  | TagO :: rest => bioul_spans_from (S k) None rest
  end.

Definition bioul_spans (tags : list tag) : list (nat * nat) :=
  bioul_spans_from 0 None tags.

(** The way back: Unit is a span start and Last is inside a span. *)
Definition from_bioul (tags : list tag) : list tag :=
  (λ t, match t with TagU => TagB | TagL => TagI | _ => t end) <$> tags.

(** ** What [_read] is expected to yield *)

(** The tags held by the instance of a sentence, as a function of the coding
    scheme, the reference list and the token texts. *)
Definition instance_tags (scheme : option str) (refs texts : list str)
    : list tag :=
  let tags := reference_tags refs texts in
  if bool_decide (scheme = Some (py "BIOUL")) then
    match to_bioul tags (py "IOB1") with
    | Ok recoded => recoded
    | Raise _ => tags
    end
  else tags.

(** The sentences of a data frame in the order [_read] visits them, each
    with the reference list of its row and its tokens. *)
Definition sentences_of (split_sentences : str → list str)
    (tokenize : str → list Token) (df : list Row)
    : list (list str * list Token) :=
  line ← df; sentence ← split_sentences (full_text line);
  [(parse_references (references_all line), tokenize sentence)].

(** What an instance says about its sentence in a given heap: it carries
    the tokens of the sentence, and its label object holds the expected
    tags. *)
Definition instance_for (scheme : option str) (h : list (list tag))
    (inst : Instance) (job : list str * list Token) : Prop :=
  field_tokens (fields_tokens inst) = job.2
  ∧ h !! labels (fields_tags inst)
    = Some (instance_tags scheme job.1 (text <$> job.2)).

(** The matching spans of a sentence, in the order the loops visit them. *)
Definition matching_spans (refs texts : list str) : list (nat * nat) :=
  filter (λ span, is_reference refs texts span.1 span.2 = true)
         (all_spans (length texts)).

(** An O/B/I sequence with every "I" that continues no span written as
    "B"; [inside] tells whether the tag before the first one is in a span. *)
Fixpoint iob1_normal (inside : bool) (tags : list tag) : list tag :=
  match tags with
  | [] => []
  | TagB :: rest => TagB :: iob1_normal true rest
  | TagI :: rest => (if inside then TagI else TagB) :: iob1_normal true rest
  | t :: rest => t :: iob1_normal false rest
  end.

(** The addresses of the list objects a list of instances holds, and the
    number of list objects [_read] creates for one sentence: the loop's, and
    with BIOUL the recoder's. *)
Definition label_addrs (insts : list Instance) : list addr :=
  (λ inst, labels (fields_tags inst)) <$> insts.

Definition objects_per_sentence (self : ReferencesDatasetReader) : nat :=
  if bool_decide (coding_scheme self = Some (py "BIOUL")) then 2 else 1.

(** ** Example data *)

(** A token with the given text and no offset. *)
Definition tok (s : str) : Token := {| text := s; idx := None |}.

(** A tokenization of the sentence of the end-to-end example of the
    specification (section 8). *)
Definition civil_code_sentence : str := py "本案依据《民法典》第一条判决。".

Definition civil_code_tokens : list Token :=
  [tok (py "本案"); tok (py "依据"); tok (py "《"); tok (py "民法典");
   tok (py "》"); tok (py "第一"); tok (py "条"); tok (py "判决");
   tok (py "。")].

(** A data frame of two rows, the second without references, and stand-ins
    for the library calls of [_read]: no cache redirection, a csv parser
    that knows one file, one sentence per text, one token per character. *)
Definition example_df : list Row :=
  [{| references_all := CellStr (py "《民法典》；|合同；");
      full_text := civil_code_sentence |};
   {| references_all := CellNaN; full_text := py "nan" |}].

Definition example_cached_path (file_path : str) : str := file_path.

Definition example_read_csv (file_path : str) : result (list Row) :=
  if bool_decide (file_path = py "cases.csv") then Ok example_df
  else Raise OSError.

Definition example_split_sentences (full_text : str) : list str := [full_text].

Definition example_tokenize (sentence : str) : list Token :=
  imap (λ i c, {| text := [c]; idx := Some i |}) sentence.

(** The reader [__init__] builds for a coding scheme, with the default
    indexers and namespace. *)
Definition example_reader (scheme : str) : ReferencesDatasetReader :=
  {| _token_indexers := [(py "tokens", SingleIdTokenIndexer)];
     coding_scheme := Some scheme;
     label_namespace := py "labels";
     _original_coding_scheme := py "IOB1";
     _spacy_model := py "zh_core_web_sm" |}.

Definition example_start : world := World [] [].

Definition example_loaded : world :=
  World [LoadSpacyModel (py "zh_core_web_sm");
         LoadSpacyModel (py "zh_core_web_sm")] [].

(** * Properties *)

(** ** Python list operations *)

Section list_ops.
Context {A : Type}.
Implicit Types (l v : list A) (x : A).

Lemma setitem_lt l i x : i < length l → setitem l i x = Ok (<[i:=x]> l).
Proof. intros Hi. unfold setitem. by rewrite decide_True. Qed.

Lemma setitem_ge l i x : length l ≤ i → setitem l i x = Raise IndexError.
Proof. intros Hi. unfold setitem. rewrite decide_False; [done | lia]. Qed.

Lemma length_setslice l lo hi v :
  lo ≤ hi ≤ length l →
  length (setslice l lo hi v) = length l - (hi - lo) + length v.
Proof.
  intros Hb. unfold setslice.
  rewrite !length_app, length_take, length_drop. lia.
Qed.

Lemma lookup_setslice l lo hi v k :
  lo ≤ hi ≤ length l →
  setslice l lo hi v !! k =
    if decide (k < lo) then l !! k
    else if decide (k < lo + length v) then v !! (k - lo)
    else l !! (hi + (k - lo - length v)).
Proof.
  intros Hb. unfold setslice.
  assert (Hlt : length (take lo l) = lo) by (rewrite length_take; lia).
  repeat case_decide.
  - rewrite lookup_app_l by lia. by apply lookup_take_lt.
  - rewrite lookup_app_r, Hlt by lia. by rewrite lookup_app_l by lia.
  - rewrite lookup_app_r, Hlt by lia. rewrite lookup_app_r by lia.
    rewrite lookup_drop. f_equal. lia.
Qed.

Lemma slice_fmap {B : Type} (f : A → B) l lo hi :
  f <$> slice l lo hi = slice (f <$> l) lo hi.
Proof. unfold slice. by rewrite fmap_drop, fmap_take. Qed.

Lemma slice_full l : slice l 0 (length l) = l.
Proof. unfold slice. by rewrite drop_0, firstn_all. Qed.
End list_ops.

Lemma join_empty (parts : list str) : join [] parts = concat parts.
Proof.
  induction parts as [|p [|q ps] IH]; [done | |].
  - simpl. by rewrite app_nil_r.
  - change (join [] (p :: q :: ps)) with (p ++ [] ++ join [] (q :: ps)).
    by rewrite IH.
Qed.

Lemma span_text_concat (tokens : list Token) (i j : nat) :
  span_text tokens i j = concat (slice (text <$> tokens) i j).
Proof. unfold span_text. by rewrite (join_empty _), slice_fmap. Qed.

(** ** Loops *)

(** A loop in [result] whose body cannot fail on states satisfying an
    invariant is a left fold. *)
Lemma for_each_foldl {X S : Type} (P : S → Prop) (body : X → S → result S)
    (f : S → X → S) (xs : list X) (s : S) :
  P s →
  (∀ x s, x ∈ xs → P s → body x s = Ok (f s x) ∧ P (f s x)) →
  for_each xs body s = Ok (foldl f s xs) ∧ P (foldl f s xs).
Proof.
  revert s. induction xs as [|x xs IH]; intros s Hs Hbody; [done|].
  destruct (Hbody x s) as [Hx HP]; [by left | done |].
  cbn [for_each foldl]. rewrite Hx. cbn.
  apply IH; [done|]. intros y s' Hy. apply Hbody. by right.
Qed.

Lemma foldl_bind {X Y S : Type} (f : S → Y → S) (g : X → list Y)
    (xs : list X) (s : S) :
  foldl f s (xs ≫= g) = foldl (λ s x, foldl f s (g x)) s xs.
Proof.
  revert s. induction xs as [|x xs IH]; intros s; [done|].
  cbn. by rewrite foldl_app, IH.
Qed.

(** ** One step of the labelling loop *)

Lemma length_write_span i j tags : length (write_span i j tags) = length tags.
Proof. apply length_imap. Qed.

Lemma lookup_write_span i j tags k :
  write_span i j tags !! k =
    (λ t, if decide (k = i) then TagB
          else if decide (i < k < j) then TagI else t) <$> tags !! k.
Proof. unfold write_span. by rewrite list_lookup_imap. Qed.

(** Item assignment followed by slice assignment is the pointwise marking
    of the specification; in particular the slice assignment keeps the
    length. *)
Lemma setslice_write_span i j (tags : list tag) :
  i < j ≤ length tags →
  setslice (<[i:=TagB]> tags) (i + 1) j (replicate (j - i - 1) TagI)
  = write_span i j tags.
Proof.
  intros Hij. apply list_eq; intros k.
  rewrite lookup_setslice by (rewrite length_insert; lia).
  rewrite lookup_write_span, length_replicate.
  repeat case_decide; try lia.
  - subst k. rewrite list_lookup_insert_eq by lia.
    destruct (lookup_lt_is_Some_2 tags i) as [t ->]; [lia | done].
  - rewrite list_lookup_insert_ne by lia. by destruct (tags !! k).
  - rewrite lookup_replicate_2 by lia.
    destruct (lookup_lt_is_Some_2 tags k) as [t ->]; [lia | done].
  - rewrite list_lookup_insert_ne by lia.
    replace (j + (k - (i + 1) - (j - i - 1))) with k by lia.
    by destruct (tags !! k).
Qed.

Lemma label_span_mark refs tokens i j tags :
  i < j ≤ length tags →
  label_span refs tokens i j tags
  = Ok (mark refs (text <$> tokens) tags (i, j)).
Proof.
  intros Hij. unfold label_span, mark, is_reference. cbn [fst snd].
  rewrite span_text_concat.
  destruct (bool_decide _); [|reflexivity].
  rewrite setitem_lt by lia. cbn. by rewrite setslice_write_span.
Qed.

Lemma length_mark refs texts tags span :
  length (mark refs texts tags span) = length tags.
Proof. unfold mark. case_match; [apply length_write_span | done]. Qed.

(** ** The loops as a fold over all spans *)

Lemma foldl_ext {X S : Type} (f g : S → X → S) (xs : list X) (s : S) :
  (∀ s x, f s x = g s x) → foldl f s xs = foldl g s xs.
Proof.
  intros Hfg. revert s. induction xs as [|x xs IH]; intros s; [done|].
  cbn. by rewrite Hfg, IH.
Qed.

Lemma all_spans_fold {S : Type} (f : S → nat * nat → S) (n : nat) (s : S) :
  foldl f s (all_spans n)
  = foldl (λ s i, foldl (λ s j, f s (i, j)) s (range (i + 1) (n + 1)))
          s (range 0 n).
Proof.
  unfold all_spans, range. rewrite foldl_bind, Nat.sub_0_r.
  apply foldl_ext; intros s' i. rewrite foldl_bind.
  replace (n + 1 - (i + 1)) with (n - i) by lia. by apply foldl_ext.
Qed.

Lemma elem_of_range lo hi k : k ∈ range lo hi ↔ lo ≤ k < hi.
Proof. unfold range. rewrite elem_of_seq. lia. Qed.

Lemma label_loops_fold refs tokens tags :
  length tags = length tokens →
  label_loops refs tokens tags
  = Ok (foldl (mark refs (text <$> tokens)) tags (all_spans (length tokens)))
  ∧ length (foldl (mark refs (text <$> tokens)) tags
                  (all_spans (length tokens))) = length tokens.
Proof.
  intros Hlen. rewrite all_spans_fold. unfold label_loops.
  apply (for_each_foldl (λ s, length s = length tokens)); [done|].
  intros i s Hi Hs.
  apply (for_each_foldl (λ s, length s = length tokens)); [done|].
  intros j s' Hj Hs'. apply elem_of_range in Hi, Hj.
  rewrite label_span_mark by lia. by rewrite length_mark.
Qed.

(** ** The tags in closed form *)

(** After the inner loop for start [i] over any ends [js]: position [i] is
    "B" if some span matched, a later position is "I" if a matching span
    reaches beyond it, and everything else is as before. *)
Lemma inner_fold_lookup refs texts i js t k :
  foldl (λ s j, mark refs texts s (i, j)) t js !! k
  = (λ x, if decide (k = i)
          then (if existsb (is_reference refs texts i) js then TagB else x)
          else if bool_decide (i < k)
                  && existsb (λ j, bool_decide (k < j)
                                   && is_reference refs texts i j) js
               then TagI else x) <$> t !! k.
Proof.
  revert t. induction js as [|j js IH]; intros t.
  - cbn. destruct (t !! k); [|done]. cbn. rewrite andb_false_r.
    by case_decide.
  - cbn [foldl existsb]. rewrite IH. unfold mark. cbn [fst snd].
    destruct (is_reference refs texts i j) eqn:Hij.
    + rewrite lookup_write_span. destruct (t !! k) as [x|]; [|done]. cbn.
      f_equal. repeat (case_decide || case_bool_decide); cbn;
        try lia; try done; repeat case_match; try done.
    + destruct (t !! k) as [x|]; [|done]. cbn. by rewrite andb_false_r.
Qed.

Lemma range_snoc m : range 0 (S m) = range 0 m ++ [m].
Proof. unfold range. rewrite !Nat.sub_0_r. by rewrite seq_S. Qed.

Lemma inside_span_le refs texts m m' k :
  k ≤ m → k ≤ m' → inside_span refs texts m k = inside_span refs texts m' k.
Proof.
  intros Hm Hm'. unfold inside_span.
  by rewrite (Nat.min_r m k), (Nat.min_r m' k) by lia.
Qed.

Lemma inside_span_S refs texts m k :
  m < k →
  inside_span refs texts (S m) k
  = inside_span refs texts m k || covers refs texts k m.
Proof.
  intros Hk. unfold inside_span.
  rewrite (Nat.min_l (S m) k), (Nat.min_l m k) by lia.
  rewrite range_snoc, existsb_app. cbn [existsb]. by rewrite orb_false_r.
Qed.

(** After the outer loop has handled the starts below [m]. *)
Lemma outer_fold_lookup refs texts m k :
  m ≤ length texts → k < length texts →
  foldl (λ s i, foldl (λ s j, mark refs texts s (i, j)) s
                      (range (i + 1) (length texts + 1)))
        (replicate (length texts) TagO) (range 0 m) !! k
  = Some (if bool_decide (k < m) && starts_span refs texts k then TagB
          else if inside_span refs texts m k then TagI else TagO).
Proof.
  intros Hm Hk. induction m as [|m IH].
  - cbn. by rewrite lookup_replicate_2.
  - rewrite range_snoc, foldl_snoc, inner_fold_lookup, IH by lia.
    cbn [fmap option_fmap option_map]. f_equal.
    fold (covers refs texts k m). fold (starts_span refs texts m).
    destruct (decide (k = m)) as [->|Hne].
    + rewrite (bool_decide_eq_false_2 (m < m)) by lia.
      rewrite (bool_decide_eq_true_2 (m < S m)) by lia.
      by rewrite (inside_span_le _ _ (S m) m m) by lia.
    + destruct (decide (k < m)) as [Hlt|Hge].
      * rewrite (bool_decide_eq_false_2 (m < k)) by lia.
        rewrite (bool_decide_eq_true_2 (k < m)) by lia.
        rewrite (bool_decide_eq_true_2 (k < S m)) by lia.
        by rewrite (inside_span_le _ _ (S m) m k) by lia.
      * rewrite (bool_decide_eq_true_2 (m < k)) by lia.
        rewrite (bool_decide_eq_false_2 (k < m)) by lia.
        rewrite (bool_decide_eq_false_2 (k < S m)) by lia.
        rewrite inside_span_S by lia. cbn [andb].
        by destruct (inside_span refs texts m k), (covers refs texts k m).
Qed.

Lemma length_reference_tags refs texts :
  length (reference_tags refs texts) = length texts.
Proof.
  unfold reference_tags.
  generalize (all_spans (length texts)). intros spans.
  assert (H : ∀ t, length (foldl (mark refs texts) t spans) = length t).
  { induction spans as [|sp spans IH]; intros t; [done|].
    cbn. by rewrite IH, length_mark. }
  by rewrite H, length_replicate.
Qed.

(** Last write wins, in closed form: the tag of a position is "B" if a
    matching span starts there, else "I" if a matching span has it in its
    interior, else "O". *)
Lemma reference_tags_lookup refs texts k :
  k < length texts →
  reference_tags refs texts !! k = Some (tag_at refs texts k).
Proof.
  intros Hk. unfold reference_tags. rewrite all_spans_fold.
  rewrite outer_fold_lookup by lia.
  rewrite bool_decide_eq_true_2 by done. unfold tag_at.
  by rewrite (inside_span_le _ _ (length texts) k k) by lia.
Qed.

Lemma starts_span_true refs texts k :
  starts_span refs texts k = true ↔ ∃ j, matching refs texts k j.
Proof.
  unfold starts_span, matching. rewrite existsb_exists. split.
  - intros (j & Hj & Href). exists j. split; [|done].
    apply list_elem_of_In, elem_of_range in Hj. lia.
  - intros (j & Hj & Href). exists j. split; [|done].
    apply list_elem_of_In, elem_of_range. lia.
Qed.

Lemma inside_span_true refs texts k :
  inside_span refs texts k k = true ↔
  ∃ i j, i < k < j ∧ matching refs texts i j.
Proof.
  unfold inside_span, covers, matching. rewrite existsb_exists. split.
  - intros (i & Hi & Hc). apply existsb_exists in Hc as (j & Hj & Hc).
    apply andb_true_iff in Hc as [Hkj Href].
    apply bool_decide_eq_true in Hkj.
    apply list_elem_of_In, elem_of_range in Hi, Hj.
    exists i, j. repeat split; try done; lia.
  - intros (i & j & Hik & Hij & Href). exists i. split.
    + apply list_elem_of_In, elem_of_range. lia.
    + apply existsb_exists. exists j. split.
      * apply list_elem_of_In, elem_of_range. lia.
      * apply andb_true_iff. split; [|done]. apply bool_decide_eq_true. lia.
Qed.

Lemma label_tokens_fold refs tokens :
  label_tokens refs tokens = Ok (reference_tags refs (text <$> tokens)).
Proof.
  unfold label_tokens, reference_tags.
  rewrite length_fmap, <- (const_fmap (λ _, TagO) tokens TagO) by done.
  apply label_loops_fold. by rewrite length_fmap.
Qed.

Lemma tag_at_iob refs texts k :
  tag_at refs texts k = TagO ∨ tag_at refs texts k = TagB
  ∨ tag_at refs texts k = TagI.
Proof. unfold tag_at. repeat case_match; auto. Qed.

Lemma reference_tags_iob refs texts : iob (reference_tags refs texts).
Proof.
  apply Forall_lookup. intros k t Hk.
  assert (Hlt : k < length texts).
  { apply lookup_lt_Some in Hk. by rewrite length_reference_tags in Hk. }
  rewrite reference_tags_lookup in Hk by done.
  injection Hk as <-. apply tag_at_iob.
Qed.

(** ** The labelling loop on a list object *)

Lemma world_eta w : World (log w) (heap w) = w.
Proof. by destruct w. Qed.

Lemma heap_setitem_run tags i x w l l' :
  heap w !! tags = Some l → setitem l i x = Ok l' →
  heap_setitem tags i x w = (Ok (), World (log w) (<[tags:=l']> (heap w))).
Proof.
  intros Hl Hset. unfold heap_setitem, load, lift, store.
  cbv [mbind Py_bind]. by rewrite Hl, Hset.
Qed.

Lemma heap_setslice_run tags lo hi v w l :
  heap w !! tags = Some l →
  heap_setslice tags lo hi v w
  = (Ok (), World (log w) (<[tags:=setslice l lo hi v]> (heap w))).
Proof.
  intros Hl. unfold heap_setslice, load, store.
  cbv [mbind Py_bind]. by rewrite Hl.
Qed.

(** A loop whose body updates the object at [a] as [body] updates its
    value updates it as the whole loop on the value does. *)
Lemma for_each_in_place {X : Type} (a : addr) (xs : list X)
    (run : X → unit → Py unit) (body : X → list tag → result (list tag)) :
  (∀ x w l l', heap w !! a = Some l → body x l = Ok l' →
     run x () w = (Ok (), World (log w) (<[a:=l']> (heap w)))) →
  ∀ w l l', heap w !! a = Some l → for_each xs body l = Ok l' →
    for_each xs run () w = (Ok (), World (log w) (<[a:=l']> (heap w))).
Proof.
  intros Hrun. induction xs as [|x xs IH]; intros w l l' Hl Hloop.
  - injection Hloop as <-. cbn. unfold mret, Py_ret.
    by rewrite list_insert_id, world_eta.
  - cbn in Hloop. destruct (body x l) as [l1|e] eqn:Hx; [|done].
    cbn in Hloop. cbn [for_each]. cbv [mbind Py_bind].
    rewrite (Hrun x w l l1) by done.
    erewrite IH; [|cbn [heap]|exact Hloop].
    + cbn [log heap]. by rewrite list_insert_insert_eq.
    + apply list_lookup_insert_eq. by apply lookup_lt_Some in Hl.
Qed.

Lemma label_in_place_run refs tokens a w l l' :
  heap w !! a = Some l → label_loops refs tokens l = Ok l' →
  label_in_place refs tokens a w
  = (Ok (), World (log w) (<[a:=l']> (heap w))).
Proof.
  unfold label_in_place, label_loops. apply for_each_in_place.
  intros i. apply for_each_in_place.
  intros j w1 l1 l2 Hl1. unfold label_span.
  destruct (bool_decide _); [|by intros [= <-]; rewrite list_insert_id, world_eta].
  destruct (setitem l1 i TagB) as [l3|e] eqn:Hset; [|done].
  intros [= <-]. cbv [mbind Py_bind].
  rewrite (heap_setitem_run _ _ _ _ l1 l3) by done.
  rewrite (heap_setslice_run _ _ _ _ _ l3).
  - cbn [log heap]. by rewrite list_insert_insert_eq.
  - cbn [heap]. apply list_lookup_insert_eq. by apply lookup_lt_Some in Hl1.
Qed.

Lemma Py_bind_ok {A B : Type} (m : Py A) (f : A → Py B) w a w' :
  m w = (Ok a, w') → (m ≫= f) w = f a w'.
Proof. intros Hm. cbv [mbind Py_bind]. by rewrite Hm. Qed.

(** Lines 122-126 on a new list object: the object ends up holding the tags
    of the reference algorithm, and nothing else changes. *)
Lemma label_fresh_run refs tokens w :
  label_in_place refs tokens (length (heap w))
    (World (log w) (heap w ++ [(λ _, TagO) <$> tokens]))
  = (Ok (),
     World (log w) (heap w ++ [reference_tags refs (text <$> tokens)])).
Proof.
  erewrite label_in_place_run.
  - cbn [log heap]. rewrite insert_app_r_alt by done.
    by rewrite Nat.sub_diag.
  - cbn [heap]. rewrite lookup_app_r by done. by rewrite Nat.sub_diag.
  - apply label_tokens_fold.
Qed.

Lemma alloc_label_run refs tokens w :
  (tags ← alloc ((λ _, TagO) <$> tokens);
   _ ← label_in_place refs tokens tags; load tags) w
  = (Ok (reference_tags refs (text <$> tokens)),
     World (log w) (heap w ++ [reference_tags refs (text <$> tokens)])).
Proof.
  erewrite Py_bind_ok; [|reflexivity].
  erewrite Py_bind_ok; [|apply label_fresh_run].
  unfold load. cbn [heap]. by rewrite lookup_app_r, Nat.sub_diag.
Qed.

(** ** The recoder *)

Lemma length_recode_run run : length (recode_run run) = run.
Proof.
  destruct run as [|[|k]]; [done..|].
  cbn. rewrite length_app, length_replicate. cbn. lia.
Qed.

Lemma to_bioul_from_iob run tags :
  iob tags →
  ∃ out, to_bioul_from false run tags = Ok out
         ∧ length out = run + length tags.
Proof.
  intros Hiob. revert run.
  induction Hiob as [|t tags Ht _ IH]; intros run.
  - exists (recode_run run). split; [done|].
    rewrite length_recode_run. cbn. lia.
  - destruct Ht as [->|[->| ->]]; cbn [to_bioul_from].
    + destruct (IH 0) as (out & -> & Hlen). eexists. split; [done|].
      rewrite length_app, length_recode_run. cbn. lia.
    + destruct (IH 1) as (out & -> & Hlen). eexists. split; [done|].
      rewrite length_app, length_recode_run. cbn. lia.
    + destruct (IH (S run)) as (out & -> & Hlen). eexists. split; [done|].
      cbn. lia.
Qed.

Lemma to_bioul_iob tags :
  iob tags →
  ∃ out, to_bioul tags (py "IOB1") = Ok out ∧ length out = length tags.
Proof.
  intros Hiob. destruct (to_bioul_from_iob 0 tags Hiob) as (out & Hout & Hlen).
  exists out. split; [|done]. unfold to_bioul.
  by rewrite bool_decide_eq_true_2.
Qed.

Lemma length_instance_tags scheme refs texts :
  length (instance_tags scheme refs texts) = length texts.
Proof.
  unfold instance_tags. case_bool_decide; [|apply length_reference_tags].
  destruct (to_bioul_iob _ (reference_tags_iob refs texts)) as (out & -> & ->).
  apply length_reference_tags.
Qed.

(** ** The instances [_read] yields *)

Lemma instance_for_mono scheme h h' inst job :
  h `prefix_of` h' →
  instance_for scheme h inst job → instance_for scheme h' inst job.
Proof.
  intros Hpre [Htok Htags]. split; [done|].
  by eapply prefix_lookup_Some.
Qed.

Lemma text_to_instance_run self refs tokens (w : world) a :
  _original_coding_scheme self = py "IOB1" →
  heap w !! a = Some (reference_tags refs (text <$> tokens)) →
  ∃ inst w', text_to_instance self tokens (Some a) w = (Ok inst, w')
    ∧ log w' = log w ∧ heap w `prefix_of` heap w'
    ∧ instance_for (coding_scheme self) (heap w') inst (refs, tokens).
Proof.
  intros Horig Ha. unfold text_to_instance, instance_for, instance_tags.
  set (tags := reference_tags refs (text <$> tokens)) in *.
  assert (Hlen : length tags = length tokens).
  { unfold tags. by rewrite length_reference_tags, length_fmap. }
  case_bool_decide as Hscheme.
  - destruct (to_bioul_iob tags) as (out & Hout & Hout_len);
      [apply reference_tags_iob|].
    rewrite Horig.
    cbv [mbind Py_bind load lift alloc new_SequenceLabelField mret Py_ret].
    cbn [heap log]. rewrite Ha, Hout. cbn [heap log].
    rewrite lookup_app_r, Nat.sub_diag by done. cbn [lookup list_lookup].
    rewrite decide_True by (cbn; lia).
    eexists _, _. split; [reflexivity|].
    cbn [log heap fields_tokens field_tokens fields_tags labels fst snd].
    repeat split; [by apply prefix_app_r|].
    fold tags. rewrite Hout.
    rewrite lookup_app_r, Nat.sub_diag by done. done.
  - cbv [mbind Py_bind load new_SequenceLabelField mret Py_ret].
    rewrite Ha. rewrite decide_True by (cbn; lia).
    eexists _, _. split; [reflexivity|].
    by cbn [log heap fields_tokens field_tokens fields_tags labels fst snd].
Qed.

Section read_properties.
Context (cached_path : str → str) (read_csv : str → result (list Row))
        (split_sentences : str → list str) (tokenize : str → list Token).

Lemma read_sentence_run self refs sentence yielded w :
  _original_coding_scheme self = py "IOB1" →
  ∃ inst w',
    read_sentence tokenize self refs sentence yielded w
    = (Ok (yielded ++ [inst]), w')
    ∧ log w' = log w ∧ heap w `prefix_of` heap w'
    ∧ instance_for (coding_scheme self) (heap w') inst
                   (refs, tokenize sentence).
Proof.
  intros Horig.
  set (w1 := World (log w)
               (heap w ++ [reference_tags refs
                             (text <$> tokenize sentence)])).
  destruct (text_to_instance_run self refs (tokenize sentence) w1
              (length (heap w))) as (inst & w' & Hinst & Hlog & Hpre & Hfor);
    [done | |].
  { cbn. by rewrite lookup_app_r, Nat.sub_diag. }
  exists inst, w'. split; [|split; [|split]]; [|done| |done].
  - unfold read_sentence.
    erewrite Py_bind_ok; [|reflexivity].
    erewrite Py_bind_ok; [|apply label_fresh_run].
    by erewrite Py_bind_ok; [|exact Hinst].
  - etrans; [|exact Hpre]. by apply prefix_app_r.
Qed.

(** The loop over the sentences of one row. *)
Lemma read_line_run self line yielded jobs w :
  _original_coding_scheme self = py "IOB1" →
  Forall2 (instance_for (coding_scheme self) (heap w)) yielded jobs →
  ∃ insts w',
    read_line split_sentences tokenize self line yielded w
    = (Ok insts, w')
    ∧ log w' = log w ∧ heap w `prefix_of` heap w'
    ∧ Forall2 (instance_for (coding_scheme self) (heap w')) insts
        (jobs ++ sentences_of split_sentences tokenize [line]).
Proof.
  intros Horig. unfold read_line, sentences_of. cbn [mbind list_bind].
  rewrite app_nil_r.
  set (refs := parse_references (references_all line)).
  generalize (split_sentences (full_text line)). intros sentences.
  revert yielded jobs w.
  induction sentences as [|s sentences IH]; intros yielded jobs w Hall.
  - exists yielded, w. cbn. by rewrite app_nil_r.
  - destruct (read_sentence_run self refs s yielded w Horig)
      as (inst & w1 & Hs & Hlog1 & Hpre1 & Hfor).
    destruct (IH (yielded ++ [inst]) (jobs ++ [(refs, tokenize s)]) w1)
      as (insts & w' & Hrest & Hlog & Hpre & Hall').
    { apply Forall2_app; [|by constructor].
      eapply Forall2_impl; [exact Hall|].
      intros ? ?. by apply instance_for_mono. }
    exists insts, w'. cbn [for_each]. erewrite Py_bind_ok by exact Hs.
    split; [done|]. split; [congruence|]. split; [by etrans|].
    cbn [mbind list_bind]. by rewrite <- app_assoc in Hall'.
Qed.

(** The loop over the rows. *)
Lemma read_lines_run self df yielded jobs w :
  _original_coding_scheme self = py "IOB1" →
  Forall2 (instance_for (coding_scheme self) (heap w)) yielded jobs →
  ∃ insts w',
    for_each df (read_line split_sentences tokenize self) yielded w
    = (Ok insts, w')
    ∧ log w' = log w ∧ heap w `prefix_of` heap w'
    ∧ Forall2 (instance_for (coding_scheme self) (heap w')) insts
        (jobs ++ sentences_of split_sentences tokenize df).
Proof.
  intros Horig. revert yielded jobs w.
  induction df as [|line df IH]; intros yielded jobs w Hall.
  - exists yielded, w. cbn. by rewrite app_nil_r.
  - destruct (read_line_run self line yielded jobs w Horig Hall)
      as (insts1 & w1 & Hline & Hlog1 & Hpre1 & Hall1).
    destruct (IH insts1 _ w1 Hall1) as (insts & w' & Hrest & Hlog & Hpre & Hall').
    exists insts, w'. cbn [for_each]. erewrite Py_bind_ok by exact Hline.
    split; [done|]. split; [congruence|]. split; [by etrans|].
    rewrite <- app_assoc in Hall'.
    unfold sentences_of in *. cbn [mbind list_bind] in *.
    by rewrite app_nil_r in Hall'.
Qed.
End read_properties.

(** * The claims *)

(** Claim C1.  For every token list and every reference list the labelling
    loop of [_read] cannot fail, and the tags it produces are those of the
    reference algorithm of the specification: one "O" per token, then every
    span in the order of its start and, for one start, of its end, each
    matching span marking "B" and "I" over what earlier spans left.  The
    same holds when the loop runs in place on a newly created list object:
    the object ends up holding these tags and no other object changes. *)
Theorem label_tokens_reference_algorithm refs tokens :
  label_tokens refs tokens = Ok (reference_tags refs (text <$> tokens))
  ∧ ∀ w,
      (tags ← alloc ((λ _, TagO) <$> tokens);
       _ ← label_in_place refs tokens tags; load tags) w
      = (Ok (reference_tags refs (text <$> tokens)),
         World (log w) (heap w ++ [reference_tags refs (text <$> tokens)])).
Proof.
  split; [apply label_tokens_fold|]. intros w. apply alloc_label_run.
Qed.

Lemma reference_tags_inside_follows_span refs texts :
  inside_follows_span (reference_tags refs texts).
Proof.
  intros k Hk.
  assert (Hlt : k < length texts).
  { apply lookup_lt_Some in Hk. by rewrite length_reference_tags in Hk. }
  rewrite reference_tags_lookup in Hk by done. injection Hk as Hk.
  unfold tag_at in Hk.
  destruct (starts_span refs texts k) eqn:Hs; [done|].
  destruct (inside_span refs texts k k) eqn:Hi; [|done].
  apply inside_span_true in Hi as (i & j & Hikj & Hm).
  destruct k as [|k']; [lia|]. exists k'. split; [done|].
  rewrite reference_tags_lookup by lia. unfold tag_at.
  destruct (starts_span refs texts k') eqn:Hs'; [by left|]. right.
  assert (Hin : inside_span refs texts k' k' = true); [|by rewrite Hin].
  apply inside_span_true. exists i, j. split; [|done].
  destruct (decide (i = k')) as [->|]; [|lia].
  assert (starts_span refs texts k' = true); [|congruence].
  apply starts_span_true. by exists j.
Qed.

(** Claim C8.  Every tag sequence the labelling loop produces is over "O",
    "B" and "I", and an "I" in it is never the first tag and always follows
    a "B" or an "I", whatever matching spans overlap. *)
Theorem label_tokens_inside_follows_span refs tokens :
  ∃ tags, label_tokens refs tokens = Ok tags
          ∧ iob tags ∧ inside_follows_span tags.
Proof.
  exists (reference_tags refs (text <$> tokens)).
  split; [apply label_tokens_fold|].
  split; [apply reference_tags_iob | apply reference_tags_inside_follows_span].
Qed.

(** ** The constructor *)

Lemma init_run ti cs ns w :
  __init__ ti cs ns w
  = if bool_decide (cs ∈ [Some (py "IOB1"); Some (py "BIOUL")])
    then (Ok {| _token_indexers :=
                  match ti with
                  | None | Some [] => [(py "tokens", SingleIdTokenIndexer)]
                  | Some d => d
                  end;
                coding_scheme := cs;
                label_namespace := ns;
                _original_coding_scheme := py "IOB1";
                _spacy_model := py "zh_core_web_sm" |},
          World (log w ++ [LoadSpacyModel (py "zh_core_web_sm");
                           LoadSpacyModel (py "zh_core_web_sm")])
                (heap w))
    else (Raise ConfigurationError, w).
Proof.
  unfold __init__. do 2 case_bool_decide; try done.
  cbv [mbind Py_bind emit mret Py_ret]. cbn [log heap].
  by rewrite <- app_assoc.
Qed.

Lemma init_ok ti cs ns w self w' :
  __init__ ti cs ns w = (Ok self, w') →
  _original_coding_scheme self = py "IOB1" ∧ coding_scheme self = cs
  ∧ (cs = Some (py "IOB1") ∨ cs = Some (py "BIOUL")).
Proof.
  rewrite init_run. case_bool_decide as Hcs; [|done].
  intros [= <- _]. cbn. repeat split.
  apply elem_of_cons in Hcs as [->|Hcs]; [by left|].
  apply list_elem_of_singleton in Hcs as ->. by right.
Qed.

(** Claim C4.  The constructor raises a ConfigurationError exactly when
    [coding_scheme] is neither "IOB1" nor "BIOUL", [None] included.  It
    raises before anything else happens: the world is left as it was, so
    no spaCy model has been loaded and no file has been read.  With either
    recognized value it returns a reader with that scheme, having loaded
    the spaCy model twice and read no file. *)
Theorem init_rejects_unknown_coding_scheme ti cs ns w :
  ((__init__ ti cs ns w).1 = Raise ConfigurationError
   ↔ cs ≠ Some (py "IOB1") ∧ cs ≠ Some (py "BIOUL"))
  ∧ (if bool_decide (cs = Some (py "IOB1") ∨ cs = Some (py "BIOUL"))
     then ∃ self,
       __init__ ti cs ns w
       = (Ok self,
          World (log w ++ [LoadSpacyModel (py "zh_core_web_sm");
                           LoadSpacyModel (py "zh_core_web_sm")]) (heap w))
       ∧ coding_scheme self = cs
     else __init__ ti cs ns w = (Raise ConfigurationError, w))
  ∧ __init__ ti None ns w = (Raise ConfigurationError, w).
Proof.
  rewrite !init_run.
  assert (Hin : cs ∈ [Some (py "IOB1"); Some (py "BIOUL")]
                ↔ cs = Some (py "IOB1") ∨ cs = Some (py "BIOUL")).
  { rewrite elem_of_cons, list_elem_of_singleton. done. }
  split; [|split].
  - case_bool_decide as Hcs; cbn [fst].
    + split; [done|]. intros [H1 H2]. apply Hin in Hcs as [?|?]; done.
    + split; [|done]. intros _. split; intros ->; apply Hcs, Hin; auto.
  - do 2 case_bool_decide; try tauto. by eexists.
  - by rewrite bool_decide_eq_false_2
      by (rewrite elem_of_cons, list_elem_of_singleton; intros [?|?]; done).
Qed.

(** ** Reading a file *)

Section read_claims.
Context (cached_path : str → str) (read_csv : str → result (list Row))
        (split_sentences : str → list str) (tokenize : str → list Token).

Lemma read_run self file_path df w :
  _original_coding_scheme self = py "IOB1" →
  read_csv (cached_path file_path) = Ok df →
  ∃ insts w',
    _read cached_path read_csv split_sentences tokenize self file_path w
    = (Ok insts, w')
    ∧ log w' = log w ++ [ReadCsv (cached_path file_path)]
    ∧ heap w `prefix_of` heap w'
    ∧ Forall2 (instance_for (coding_scheme self) (heap w')) insts
              (sentences_of split_sentences tokenize df).
Proof.
  intros Horig Hdf.
  destruct (read_lines_run split_sentences tokenize self df [] []
              (World (log w ++ [ReadCsv (cached_path file_path)]) (heap w))
              Horig) as (insts & w' & Hrun & Hlog & Hpre & Hall);
    [constructor|].
  exists insts, w'. split; [|done].
  unfold _read. erewrite Py_bind_ok; [|reflexivity].
  erewrite Py_bind_ok; [exact Hrun|]. unfold lift. by rewrite Hdf.
Qed.

(** Claim C2.  The labelling loop returns as many tags as there are tokens.
    And for a reader the constructor has built, with either coding scheme,
    and a file the csv parser can read, [_read] yields its instances
    without failing (the consistency check of the label field never
    fires), and the list object each instance holds has as many tags as
    the instance has tokens. *)
Theorem read_tags_length ti cs ns w0 self w1 file_path df w :
  __init__ ti cs ns w0 = (Ok self, w1) →
  read_csv (cached_path file_path) = Ok df →
  (∀ refs tokens, ∃ tags,
     label_tokens refs tokens = Ok tags ∧ length tags = length tokens)
  ∧ ∃ insts w',
      _read cached_path read_csv split_sentences tokenize self file_path w
      = (Ok insts, w')
      ∧ Forall (λ inst, ∃ tags,
                  heap w' !! labels (fields_tags inst) = Some tags
                  ∧ length tags
                    = length (field_tokens (fields_tokens inst))) insts.
Proof.
  intros Hinit Hdf. split.
  - intros refs tokens. eexists. split; [apply label_tokens_fold|].
    by rewrite length_reference_tags, length_fmap.
  - apply init_ok in Hinit as (Horig & _ & _).
    destruct (read_run self file_path df w Horig Hdf)
      as (insts & w' & Hrun & _ & _ & Hall).
    exists insts, w'. split; [done|]. clear Hrun.
    induction Hall as [|inst job insts jobs [Htok Htags] _ IH];
      constructor; [|done].
    eexists. split; [exact Htags|].
    by rewrite length_instance_tags, length_fmap, Htok.
Qed.

(** Claim C9.  For a reader the constructor has built and a file the csv
    parser can read, from any world: the instances [_read] yields are, in
    order, those of the sentences of the file; the tags each instance
    holds when [_read] is done are [instance_tags] of the coding scheme,
    the reference list of the sentence's own row and the texts of the
    sentence's own tokens, and of nothing else: not of the world at the
    start, of the other rows or sentences, or of the tokens' other
    attributes.  List objects that existed before are left as they were. *)
Theorem read_tags_depend_on_sentence_only ti cs ns w0 self w1 file_path df w :
  __init__ ti cs ns w0 = (Ok self, w1) →
  read_csv (cached_path file_path) = Ok df →
  (∀ refs tokens tokens',
     text <$> tokens = text <$> tokens' →
     label_tokens refs tokens = label_tokens refs tokens')
  ∧ ∃ insts w',
      _read cached_path read_csv split_sentences tokenize self file_path w
      = (Ok insts, w')
      ∧ Forall2 (λ inst job,
                   field_tokens (fields_tokens inst) = job.2
                   ∧ heap w' !! labels (fields_tags inst)
                     = Some (instance_tags cs job.1 (text <$> job.2)))
                insts (sentences_of split_sentences tokenize df)
      ∧ (∀ a l, heap w !! a = Some l → heap w' !! a = Some l).
Proof.
  intros Hinit Hdf. split.
  - intros refs tokens tokens' Htexts.
    by rewrite !label_tokens_fold, Htexts.
  - apply init_ok in Hinit as (Horig & Hcs & _).
    destruct (read_run self file_path df w Horig Hdf)
      as (insts & w' & Hrun & _ & Hpre & Hall).
    exists insts, w'. split; [done|]. rewrite Hcs in Hall. split; [done|].
    intros a l Ha. by eapply prefix_lookup_Some.
Qed.
End read_claims.

Lemma example_init scheme :
  scheme = py "IOB1" ∨ scheme = py "BIOUL" →
  __init__ None (Some scheme) (py "labels") example_start
  = (Ok (example_reader scheme), example_loaded).
Proof. intros [-> | ->]; reflexivity. Qed.

Lemma read_tags_length_witness :
  (∀ refs tokens, ∃ tags,
     label_tokens refs tokens = Ok tags ∧ length tags = length tokens)
  ∧ ∃ insts w',
      _read example_cached_path example_read_csv example_split_sentences
            example_tokenize (example_reader (py "BIOUL")) (py "cases.csv")
            example_start
      = (Ok insts, w')
      ∧ Forall (λ inst, ∃ tags,
                  heap w' !! labels (fields_tags inst) = Some tags
                  ∧ length tags
                    = length (field_tokens (fields_tokens inst))) insts.
Proof.
  apply (read_tags_length example_cached_path example_read_csv
           example_split_sentences example_tokenize
           None (Some (py "BIOUL")) (py "labels") example_start
           (example_reader (py "BIOUL")) example_loaded (py "cases.csv")
           example_df example_start).
  - apply example_init. by right.
  - reflexivity.
Defined.

Lemma read_tags_depend_on_sentence_only_witness :
  (∀ refs tokens tokens',
     text <$> tokens = text <$> tokens' →
     label_tokens refs tokens = label_tokens refs tokens')
  ∧ ∃ insts w',
      _read example_cached_path example_read_csv example_split_sentences
            example_tokenize (example_reader (py "IOB1")) (py "cases.csv")
            example_start
      = (Ok insts, w')
      ∧ Forall2 (λ inst job,
                   field_tokens (fields_tokens inst) = job.2
                   ∧ heap w' !! labels (fields_tags inst)
                     = Some (instance_tags (Some (py "IOB1")) job.1
                                           (text <$> job.2)))
                insts
                (sentences_of example_split_sentences example_tokenize
                              example_df)
      ∧ (∀ a l, heap example_start !! a = Some l → heap w' !! a = Some l).
Proof.
  apply (read_tags_depend_on_sentence_only example_cached_path
           example_read_csv example_split_sentences example_tokenize
           None (Some (py "IOB1")) (py "labels") example_start
           (example_reader (py "IOB1")) example_loaded (py "cases.csv")
           example_df example_start).
  - apply example_init. by left.
  - reflexivity.
Defined.

(** ** The reference-list parser *)

Lemma lstrip_snoc chars s c :
  c ∈ chars →
  lstrip chars (s ++ [c])
  = match lstrip chars s with [] => [] | l => l ++ [c] end.
Proof.
  intros Hc. induction s as [|x s IH]; cbn.
  - by rewrite bool_decide_eq_true_2.
  - by case_bool_decide.
Qed.

Lemma strip_snoc chars s c : c ∈ chars → strip chars (s ++ [c]) = strip chars s.
Proof.
  intros Hc. unfold strip, rstrip. rewrite lstrip_snoc by done.
  destruct (lstrip chars s) as [|x l] eqn:Hl; [done|].
  rewrite reverse_app. cbn [reverse rev_append app lstrip].
  change (rev_append [c] []) with [c]. cbn [app lstrip].
  by rewrite bool_decide_eq_true_2.
Qed.

Lemma lstrip_head chars s c : head (lstrip chars s) = Some c → c ∉ chars.
Proof.
  induction s as [|x s IH]; cbn; [done|].
  case_bool_decide; [done|]. by intros [= <-].
Qed.

Lemma strip_last chars s c : last (strip chars s) = Some c → c ∉ chars.
Proof. unfold strip, rstrip. rewrite last_reverse. apply lstrip_head. Qed.

Lemma split_nonempty sep s : split sep s ≠ [].
Proof.
  destruct s as [|c s]; cbn; [done|].
  case_bool_decide; [done|]. by destruct (split sep s).
Qed.

Lemma join_cons sep p q ps :
  join sep (p :: q :: ps) = p ++ sep ++ join sep (q :: ps).
Proof. done. Qed.

Lemma split_join sep s : join [sep] (split sep s) = s.
Proof.
  induction s as [|c s IH]; [done|]. cbn [split].
  pose proof (split_nonempty sep s) as Hne.
  destruct (split sep s) as [|w ws] eqn:Hs; [done|].
  case_bool_decide as Hc.
  - rewrite join_cons, IH. by subst.
  - destruct ws as [|w' ws]; [by cbn in *; subst|].
    rewrite join_cons in *. by rewrite <- IH.
Qed.

Lemma split_elem sep s r x : r ∈ split sep s → x ∈ r → x ∈ s ∧ x ≠ sep.
Proof.
  revert r. induction s as [|c s IH]; intros r; cbn [split].
  - intros ->%list_elem_of_singleton. by intros ?%elem_of_nil.
  - pose proof (split_nonempty sep s) as Hne.
    case_bool_decide as Hc.
    + intros [->|Hr]%elem_of_cons; [by intros ?%elem_of_nil|].
      intros Hx. destruct (IH r Hr Hx). split; [by right | done].
    + destruct (split sep s) as [|w ws] eqn:Hs; [done|].
      intros [->|Hr]%elem_of_cons.
      * intros [->|Hx]%elem_of_cons; [split; [by left | done]|].
        destruct (IH w) as [? ?]; [by left | done |]. split; [by right|done].
      * intros Hx. destruct (IH r) as [? ?]; [by right | done |].
        split; [by right | done].
Qed.

Lemma replace_empty old s : replace old [] s = filter (λ x, x ≠ old) s.
Proof.
  induction s as [|c s IH]; [done|]. cbn [replace]. rewrite IH.
  rewrite (filter_cons (λ x, x ≠ old)).
  case_bool_decide; case_decide; done.
Qed.

Lemma parse_references_join c :
  join [SEP] (parse_references c)
  = filter (λ x, x ≠ BAR) (strip [SEP] (str_of_cell c)).
Proof. unfold parse_references. by rewrite split_join, (replace_empty BAR). Qed.

(** Claim C5.  The parser splits the cell "A；B；C" into exactly "A", "B"
    and "C".  For every cell, a separator at the end of the cell is removed
    before the split: the cell with one more separator at its end parses to
    the same list, and the stripped text never ends in a separator.  Every
    bar is removed before the split: the candidates joined by the separator
    are the stripped text without its bars, and no candidate contains a bar
    or a separator. *)
Theorem parse_references_contract :
  parse_references (CellStr (py "A；B；C")) = [py "A"; py "B"; py "C"]
  ∧ (∀ s, parse_references (CellStr (s ++ py "；"))
          = parse_references (CellStr s))
  ∧ (∀ c, last (strip (py "；") (str_of_cell c)) ≠ Some SEP)
  ∧ (∀ c, join (py "；") (parse_references c)
          = filter (λ x, x ≠ BAR) (strip (py "；") (str_of_cell c)))
  ∧ (∀ c r, r ∈ parse_references c → (BAR ∉ r) ∧ (SEP ∉ r)).
Proof.
  change (py "；") with [SEP]. split; [by vm_compute|].
  split; [|split; [|split]].
  - intros s. unfold parse_references. cbn [str_of_cell].
    rewrite strip_snoc; [done | by left].
  - intros c Hlast. apply strip_last in Hlast. apply Hlast. by left.
  - apply parse_references_join.
  - intros c r Hr. unfold parse_references in Hr. split; intros Hx.
    + destruct (split_elem _ _ _ _ Hr Hx) as [Hin _].
      rewrite (replace_empty BAR) in Hin.
      by apply list_elem_of_filter in Hin as [? _].
    + by destruct (split_elem _ _ _ _ Hr Hx) as [_ ?].
Qed.

(** A separator that is followed by bars only is not at the end of the
    cell, so it stays and yields an empty last candidate. *)
Example parse_references_separator_before_bar :
  parse_references (CellStr (py "A；|")) = [py "A"; py ""].
Proof. by vm_compute. Qed.

(** Claim C6, as the code has it.  A missing value is the float NaN, whose
    [str] is the text nan in lower case; the parser yields the one-element
    list holding that text, not the empty list. *)
Theorem parse_references_missing :
  parse_references CellNaN = [py "nan"] ∧ parse_references CellNaN ≠ [].
Proof. split; [by vm_compute | done]. Qed.

(** Claim C6 as stated fails: the placeholder is not the text NaN. *)
Lemma parse_references_missing_not_NaN :
  parse_references CellNaN ≠ [py "NaN"].
Proof. by vm_compute. Qed.

(** ** Matching spans and maximal spans *)

Lemma elem_of_all_spans n i j : (i, j) ∈ all_spans n ↔ i < j ≤ n.
Proof.
  unfold all_spans. rewrite list_elem_of_bind. split.
  - intros (i' & Hj & Hi). apply list_elem_of_bind in Hj as (j' & Hij & Hj).
    apply list_elem_of_singleton in Hij as [= -> ->].
    apply elem_of_seq in Hi, Hj. lia.
  - intros Hij. exists i. split; [|apply elem_of_seq; lia].
    apply list_elem_of_bind. exists j. split; [by left|].
    apply elem_of_seq. lia.
Qed.

Lemma matching_spans_elem refs texts i j :
  (i, j) ∈ matching_spans refs texts ↔ matching refs texts i j.
Proof.
  unfold matching_spans, matching.
  rewrite list_elem_of_filter, elem_of_all_spans. cbn [fst snd]. tauto.
Qed.

Lemma matching_span_text refs tokens i j :
  matching refs (text <$> tokens) i j → span_text tokens i j ∈ refs.
Proof.
  intros [_ Href]. rewrite span_text_concat.
  by apply bool_decide_eq_true in Href.
Qed.

Lemma tag_at_B refs texts k :
  tag_at refs texts k = TagB ↔ ∃ j, matching refs texts k j.
Proof.
  rewrite <- starts_span_true. unfold tag_at.
  destruct (starts_span refs texts k); [done|].
  by destruct (inside_span refs texts k k).
Qed.

Lemma tag_at_I refs texts k :
  tag_at refs texts k = TagI ↔
  starts_span refs texts k = false
  ∧ ∃ i j, i < k < j ∧ matching refs texts i j.
Proof.
  rewrite <- inside_span_true. unfold tag_at.
  destruct (starts_span refs texts k); [by split; [|intros []]|].
  destruct (inside_span refs texts k k); [done|]. by split; [|intros []].
Qed.

(** Claim C3, amended.  When no matching span of a sentence starts
    strictly inside another matching span, so that two matching spans
    either share their start or do not overlap, every maximal span of the
    tags the labelling loop produces, a "B" followed by the "I" after it,
    is a matching span: the concatenation of its token texts is an entry of
    the reference list. *)
Theorem maximal_span_is_reference refs tokens tags k e :
  label_tokens refs tokens = Ok tags →
  (∀ i j i' j',
     matching refs (text <$> tokens) i j →
     matching refs (text <$> tokens) i' j' →
     i = i' ∨ j ≤ i' ∨ j' ≤ i) →
  maximal_span tags k e →
  span_text tokens k e ∈ refs.
Proof.
  rewrite label_tokens_fold. intros [= <-] Hapart (HB & Hke & HI & Hend).
  set (texts := text <$> tokens) in *.
  rewrite length_reference_tags in Hke.
  assert (Hlook : ∀ m, m < length texts →
            reference_tags refs texts !! m = Some (tag_at refs texts m))
    by (intros; by apply reference_tags_lookup).
  assert (Hk : k < length texts).
  { apply lookup_lt_Some in HB. by rewrite length_reference_tags in HB. }
  rewrite Hlook in HB by done. injection HB as HB.
  apply tag_at_B in HB as (j0 & Hkj0).
  apply matching_span_text.
  (* No matching span that starts at [k] ends after [e]. *)
  assert (Hle : ∀ j, matching refs texts k j → j ≤ e).
  { intros j Hkj. destruct (decide (j ≤ e)) as [|Hgt]; [done|exfalso].
    assert (He : e < length texts) by (destruct Hkj; lia).
    rewrite Hlook in Hend by done.
    destruct (tag_at refs texts e) eqn:Het; try done.
    - unfold tag_at in Het.
      destruct (starts_span refs texts e); [done|].
      assert (Hin : inside_span refs texts e e = true)
        by (apply inside_span_true; exists k, j; split; [lia | done]).
      by rewrite Hin in Het.
    - apply tag_at_B in Het as (j' & Hej').
      destruct (Hapart _ _ _ _ Hkj Hej') as [?|[?|?]]; destruct Hej'; lia.
    - unfold tag_at in Het. by repeat case_match.
    - unfold tag_at in Het. by repeat case_match. }
  (* One that ends before [e] is followed by a longer one. *)
  assert (Hgrow : ∀ d j, e - j ≤ d → matching refs texts k j →
                         matching refs texts k e).
  { induction d as [|d IH]; intros j Hd Hkj.
    - pose proof (Hle j Hkj). by replace e with j by lia.
    - pose proof (Hle j Hkj) as Hje.
      destruct (decide (j = e)) as [->|Hne]; [done|].
      assert (HjI : reference_tags refs texts !! j = Some TagI)
        by (apply HI; destruct Hkj; lia).
      rewrite Hlook in HjI by lia. injection HjI as HjI.
      apply tag_at_I in HjI as (_ & i' & j' & Hij' & Hm').
      destruct (Hapart _ _ _ _ Hkj Hm') as [<-|[?|?]];
        [|destruct Hkj; lia..].
      apply (IH j'); [|done]. lia. }
  by apply (Hgrow (e - j0) j0).
Qed.

(** With the references "ab" and "bc" the tokens "a", "b", "c" get the tags
    B, B, I: the span of the first "B" is the token "a" alone. *)
Example overlapping_spans_tags :
  label_tokens [py "ab"; py "bc"] [tok (py "a"); tok (py "b"); tok (py "c")]
  = Ok [TagB; TagB; TagI].
Proof. by vm_compute. Qed.

(** Claim C3 as stated fails when matching spans overlap. *)
Lemma maximal_span_not_always_reference :
  ¬ (∀ refs tokens tags k e,
       label_tokens refs tokens = Ok tags →
       maximal_span tags k e →
       span_text tokens k e ∈ refs).
Proof.
  intros H.
  specialize (H [py "ab"; py "bc"]
                [tok (py "a"); tok (py "b"); tok (py "c")]
                [TagB; TagB; TagI] 0 1 overlapping_spans_tags).
  assert (Hmax : maximal_span [TagB; TagB; TagI] 0 1).
  { repeat split; cbn; try done; try lia. }
  apply H in Hmax. vm_compute in Hmax.
  apply elem_of_cons in Hmax as [?|Hmax]; [done|].
  by apply list_elem_of_singleton in Hmax.
Qed.

Lemma matching_spans_single refs texts p q :
  matching_spans refs texts = [(p, q)] →
  ∀ i j, matching refs texts i j → i = p ∧ j = q.
Proof.
  intros Hspans i j Hm. apply matching_spans_elem in Hm.
  rewrite Hspans in Hm. by apply list_elem_of_singleton in Hm as [= -> ->].
Qed.

Example civil_code_matching_spans :
  matching_spans (parse_references (CellStr (py "《民法典》")))
                 (text <$> civil_code_tokens) = [(2, 5)].
Proof. by vm_compute. Qed.

Example same_start_matching_spans :
  matching_spans [py "a"; py "ab"]
                 (text <$> [tok (py "a"); tok (py "b"); tok (py "c")])
  = [(0, 1); (0, 2)].
Proof. by vm_compute. Qed.

Lemma maximal_span_is_reference_witness :
  let refs := [py "a"; py "ab"] in
  let tokens := [tok (py "a"); tok (py "b"); tok (py "c")] in
  let tags := [TagB; TagI; TagO] in
  label_tokens refs tokens = Ok tags
  ∧ maximal_span tags 0 2
  ∧ span_text tokens 0 2 ∈ refs.
Proof.
  intros refs tokens tags.
  assert (Hrun : label_tokens refs tokens = Ok tags) by (by vm_compute).
  assert (Hmax : maximal_span tags 0 2).
  { repeat split; cbn; try done; try lia.
    intros m ?. by destruct m as [|[|?]]; try lia. }
  split; [done|]. split; [done|].
  apply (maximal_span_is_reference refs tokens tags 0 2 Hrun); [|done].
  intros i j i' j' H1 H2. left.
  apply matching_spans_elem in H1, H2.
  unfold refs, tokens in H1, H2. rewrite same_start_matching_spans in H1, H2.
  apply elem_of_cons in H1 as [[= -> ->]|[= -> ->]%list_elem_of_singleton];
    apply elem_of_cons in H2 as [[= -> ->]|[= -> ->]%list_elem_of_singleton];
    done.
Defined.

(** ** The end-to-end example *)

Lemma tag_at_single refs texts p q k :
  matching refs texts p q →
  (∀ i j, matching refs texts i j → i = p ∧ j = q) →
  tag_at refs texts k
  = if decide (k = p) then TagB
    else if decide (p < k < q) then TagI else TagO.
Proof.
  intros Hpq Honly. destruct (tag_at refs texts k) eqn:Hk.
  - repeat case_decide; [| |done].
    + subst k. assert (tag_at refs texts p = TagB); [|congruence].
      apply tag_at_B. by exists q.
    + unfold tag_at in Hk.
      destruct (starts_span refs texts k); [done|].
      assert (Hin : inside_span refs texts k k = true)
        by (apply inside_span_true; by exists p, q).
      by rewrite Hin in Hk.
  - apply tag_at_B in Hk as (j & Hkj).
    destruct (Honly _ _ Hkj) as [-> _]. by rewrite decide_True.
  - apply tag_at_I in Hk as (Hs & i & j & Hikj & Hij).
    destruct (Honly _ _ Hij) as [-> ->].
    rewrite decide_False by lia. by rewrite decide_True.
  - unfold tag_at in Hk. by repeat case_match.
  - unfold tag_at in Hk. by repeat case_match.
Qed.

(** Claim C7.  With the one reference "《民法典》" and a tokenized sentence
    in which "《", "民法典" and "》" are three adjacent tokens, and in which
    no other span of tokens concatenates to the reference, the labelling
    loop tags these three tokens B, I, I and every other token O. *)
Theorem civil_code_example pre post t1 t2 t3 :
  let refs := parse_references (CellStr (py "《民法典》")) in
  let tokens := pre ++ [t1; t2; t3] ++ post in
  text t1 = py "《" → text t2 = py "民法典" → text t3 = py "》" →
  (∀ i j, matching refs (text <$> tokens) i j →
          i = length pre ∧ j = length pre + 3) →
  label_tokens refs tokens
  = Ok (replicate (length pre) TagO ++ [TagB; TagI; TagI]
        ++ replicate (length post) TagO).
Proof.
  intros refs tokens H1 H2 H3 Honly. rewrite label_tokens_fold. f_equal.
  set (texts := text <$> tokens) in *.
  assert (Hlen : length texts = length pre + 3 + length post).
  { unfold texts, tokens. rewrite length_fmap, !length_app. cbn. lia. }
  assert (Hm : matching refs texts (length pre) (length pre + 3)).
  { split; [lia|]. unfold is_reference. apply bool_decide_eq_true.
    assert (Hslice : slice texts (length pre) (length pre + 3)
                     = [text t1; text t2; text t3]).
    { unfold texts, tokens, slice. rewrite !fmap_app.
      rewrite take_app_add' by (by rewrite length_fmap).
      rewrite drop_app_length' by (by rewrite length_fmap). done. }
    rewrite Hslice, H1, H2, H3. by vm_compute; left. }
  apply list_eq. intros k.
  destruct (decide (k < length texts)) as [Hk|Hk].
  - rewrite reference_tags_lookup by done.
    rewrite (tag_at_single _ _ _ _ _ Hm Honly).
    destruct (decide (k < length pre)) as [Hpre|Hpre].
    { rewrite lookup_app_l by (rewrite length_replicate; lia).
      rewrite lookup_replicate_2 by done.
      rewrite decide_False by lia. by rewrite decide_False by lia. }
    rewrite lookup_app_r by (rewrite length_replicate; lia).
    rewrite length_replicate.
    destruct (k - length pre) as [|[|[|d]]] eqn:Hd.
    + by rewrite decide_True by lia.
    + rewrite decide_False by lia. by rewrite decide_True by lia.
    + rewrite decide_False by lia. by rewrite decide_True by lia.
    + change (([TagB; TagI; TagI] ++ replicate (length post) TagO)
              !! S (S (S d)))
        with (replicate (length post) TagO !! d).
      rewrite lookup_replicate_2 by lia.
      rewrite decide_False by lia. by rewrite decide_False by lia.
  - rewrite !lookup_ge_None_2; [done| |].
    + rewrite !length_app, !length_replicate. cbn. lia.
    + rewrite length_reference_tags. lia.
Qed.

Lemma civil_code_example_witness :
  join (py "") (text <$> civil_code_tokens) = civil_code_sentence
  ∧ label_tokens (parse_references (CellStr (py "《民法典》")))
                 civil_code_tokens
    = Ok [TagO; TagO; TagB; TagI; TagI; TagO; TagO; TagO; TagO].
Proof.
  split; [by vm_compute|].
  apply (civil_code_example [tok (py "本案"); tok (py "依据")]
           [tok (py "第一"); tok (py "条"); tok (py "判决"); tok (py "。")]
           (tok (py "《")) (tok (py "民法典")) (tok (py "》")));
    [reflexivity..|].
  exact (matching_spans_single _ _ _ _ civil_code_matching_spans).
Defined.

(** ** Recoding and spans *)

Lemma bioul_spans_inside s k r rest :
  bioul_spans_from k (Some s) (replicate r TagI ++ TagL :: rest)
  = (s, S (k + r)) :: bioul_spans_from (S (k + r)) None rest.
Proof.
  revert k. induction r as [|r IH]; intros k; cbn.
  - by rewrite Nat.add_0_r.
  - rewrite IH. by replace (S k + r) with (k + S r) by lia.
Qed.

Lemma bioul_spans_recode s run rest :
  bioul_spans_from s None (recode_run run ++ rest)
  = (if decide (run = 0) then [] else [(s, s + run)])
    ++ bioul_spans_from (s + run) None rest.
Proof.
  destruct run as [|[|r]]; cbn [recode_run app].
  - by rewrite Nat.add_0_r.
  - cbn. by rewrite Nat.add_1_r.
  - cbn [bioul_spans_from]. rewrite <- app_assoc. cbn [app].
    rewrite bioul_spans_inside. rewrite decide_False by done.
    by replace (S (S s + r)) with (s + S (S r)) by lia.
Qed.

Lemma to_bioul_from_spans tags : ∀ run k out,
  run ≤ k →
  to_bioul_from false run tags = Ok out →
  bioul_spans_from (k - run) None out
  = iob1_spans_from k (if decide (run = 0) then None else Some (k - run))
                    tags.
Proof.
  induction tags as [|t tags IH]; intros run k out Hrun.
  - intros [= <-]. cbn. rewrite <- (app_nil_r (recode_run run)).
    rewrite bioul_spans_recode. cbn. rewrite app_nil_r.
    case_decide; [done|]. cbn. repeat f_equal. lia.
  - destruct t; cbn [to_bioul_from iob1_spans_from]; try done.
    + destruct (to_bioul_from false 0 tags) as [out'|] eqn:Hout; [|done].
      intros [= <-]. rewrite bioul_spans_recode.
      replace (k - run + run) with k by lia. cbn [bioul_spans_from].
      pose proof (IH 0 (S k) out' ltac:(lia) Hout) as IH0.
      rewrite decide_True, Nat.sub_0_r in IH0 by done. rewrite IH0.
      f_equal. case_decide; [done|]. cbn. repeat f_equal; lia.
    + destruct (to_bioul_from false 1 tags) as [out'|] eqn:Hout; [|done].
      intros [= <-]. rewrite bioul_spans_recode.
      replace (k - run + run) with k by lia.
      pose proof (IH 1 (S k) out' ltac:(lia) Hout) as IH1.
      rewrite decide_False in IH1 by done.
      replace (S k - 1) with k in IH1 by lia. rewrite IH1.
      f_equal. case_decide; [done|]. cbn. repeat f_equal; lia.
    + cbn [andb]. intros Hout.
      pose proof (IH (S run) (S k) out ltac:(lia) Hout) as IHS.
      rewrite decide_False in IHS by done.
      replace (S k - S run) with (k - run) in IHS by lia. rewrite IHS.
      repeat f_equal. case_decide; [subst; cbn; lia | done].
Qed.

Lemma from_bioul_recode run :
  from_bioul (recode_run run)
  = match run with 0 => [] | S r => TagB :: replicate r TagI end.
Proof.
  destruct run as [|[|r]]; [done..|]. unfold from_bioul. cbn.
  rewrite fmap_app, fmap_replicate. cbn. f_equal.
  by rewrite <- replicate_S_end.
Qed.

Lemma to_bioul_from_back tags : ∀ run out,
  to_bioul_from false run tags = Ok out →
  from_bioul out
  = match run with 0 => [] | S r => TagB :: replicate r TagI end
    ++ iob1_normal (bool_decide (run ≠ 0)) tags.
Proof.
  induction tags as [|t tags IH]; intros run out.
  - intros [= <-]. by rewrite from_bioul_recode, app_nil_r.
  - destruct t; cbn [to_bioul_from iob1_normal]; try done.
    + destruct (to_bioul_from false 0 tags) as [out'|] eqn:Hout; [|done].
      intros [= <-]. unfold from_bioul in *. rewrite fmap_app.
      fold (from_bioul (recode_run run)). rewrite from_bioul_recode.
      cbn [fmap list_fmap]. by rewrite (IH 0 out' Hout).
    + destruct (to_bioul_from false 1 tags) as [out'|] eqn:Hout; [|done].
      intros [= <-]. unfold from_bioul in *. rewrite fmap_app.
      fold (from_bioul (recode_run run)). rewrite from_bioul_recode.
      by rewrite (IH 1 out' Hout).
    + cbn [andb]. intros Hout. rewrite (IH (S run) out Hout).
      destruct run as [|r]; [done|]. cbn.
      rewrite !bool_decide_eq_true_2 by done. f_equal.
      by rewrite app_comm_cons, replicate_cons_app, <- app_assoc.
Qed.

Lemma iob1_normal_spans tags : ∀ k start,
  iob1_spans_from k start (iob1_normal (bool_decide (is_Some start)) tags)
  = iob1_spans_from k start tags.
Proof.
  induction tags as [|t tags IH]; intros k start; [done|].
  destruct t; cbn [iob1_normal iob1_spans_from].
  - by rewrite <- (IH (S k) None).
  - by rewrite <- (IH (S k) (Some k)).
  - destruct start as [s|]; cbn.
    + by rewrite <- (IH (S k) (Some s)).
    + by rewrite <- (IH (S k) (Some k)).
  - by rewrite <- (IH (S k) None).
  - by rewrite <- (IH (S k) None).
Qed.

Lemma iob1_normal_id tags : ∀ inside,
  (∀ k, tags !! k = Some TagI →
        match k with
        | 0 => inside = true
        | S k' => tags !! k' = Some TagB ∨ tags !! k' = Some TagI
        end) →
  iob1_normal inside tags = tags.
Proof.
  induction tags as [|t tags IH]; intros inside Hwf; [done|].
  assert (Hrest : ∀ b, (t = TagI ∨ t = TagB → b = true) →
            iob1_normal b tags = tags).
  { intros b Hb. apply IH. intros [|k'] Hk.
    - destruct (Hwf 1 Hk) as [[= ->]|[= ->]]; apply Hb; auto.
    - apply (Hwf (S (S k')) Hk). }
  destruct t; cbn [iob1_normal]; f_equal; try (apply Hrest; intros [|]; done).
  by rewrite (Hwf 0 eq_refl).
Qed.

(** Claim C10.  For every sequence over "O", "B" and "I": the recoder
    accepts it and keeps its length; the spans of the recoded sequence, read
    as BIOUL, are the spans of the sequence read as IOB1; converting back
    gives a sequence with the same spans; and when no "I" is first or
    follows an "O", as in every output of the labelling loop, converting
    back gives the sequence itself. *)
Theorem to_bioul_round_trip tags :
  iob tags →
  ∃ recoded,
    to_bioul tags (py "IOB1") = Ok recoded
    ∧ length recoded = length tags
    ∧ bioul_spans recoded = iob1_spans tags
    ∧ iob1_spans (from_bioul recoded) = iob1_spans tags
    ∧ (inside_follows_span tags → from_bioul recoded = tags).
Proof.
  intros Hiob. destruct (to_bioul_iob tags Hiob) as (out & Hout & Hlen).
  exists out. split; [done|]. split; [done|].
  unfold to_bioul in Hout. rewrite bool_decide_eq_true_2 in Hout by done.
  pose proof (to_bioul_from_back tags 0 out Hout) as Hback.
  cbn [app] in Hback. rewrite bool_decide_eq_false_2 in Hback by (by intros ?).
  split; [|split].
  - apply (to_bioul_from_spans tags 0 0 out); [lia | done].
  - rewrite Hback. apply (iob1_normal_spans tags 0 None).
  - intros Hwf. rewrite Hback. apply iob1_normal_id.
    intros k Hk. destruct (Hwf k Hk) as (k' & -> & Hk'). done.
Qed.

Lemma to_bioul_round_trip_witness :
  ∃ recoded,
    to_bioul [TagO; TagB; TagI; TagI; TagB; TagO] (py "IOB1") = Ok recoded
    ∧ length recoded = 6
    ∧ bioul_spans recoded = iob1_spans [TagO; TagB; TagI; TagI; TagB; TagO]
    ∧ iob1_spans (from_bioul recoded)
      = iob1_spans [TagO; TagB; TagI; TagI; TagB; TagO]
    ∧ (inside_follows_span [TagO; TagB; TagI; TagI; TagB; TagO] →
       from_bioul recoded = [TagO; TagB; TagI; TagI; TagB; TagO]).
Proof.
  apply (to_bioul_round_trip [TagO; TagB; TagI; TagI; TagB; TagO]).
  unfold iob. repeat (apply Forall_cons; split; [tauto|]). apply Forall_nil.
  done.
Defined.

(** The recoding of that sequence, and its spans. *)
Example to_bioul_example :
  to_bioul [TagO; TagB; TagI; TagI; TagB; TagO] (py "IOB1")
  = Ok [TagO; TagB; TagI; TagL; TagU; TagO]
  ∧ iob1_spans [TagO; TagB; TagI; TagI; TagB; TagO] = [(1, 4); (4, 5)]
  ∧ bioul_spans [TagO; TagB; TagI; TagL; TagU; TagO] = [(1, 4); (4, 5)].
Proof. by vm_compute. Qed.

(** An "I" after an "O" opens a span in IOB1; the way back writes it as
    "B": the tags differ and the spans do not. *)
Example to_bioul_inside_after_outside :
  to_bioul [TagO; TagI] (py "IOB1") = Ok [TagO; TagU]
  ∧ from_bioul [TagO; TagU] = [TagO; TagB]
  ∧ iob1_spans [TagO; TagB] = iob1_spans [TagO; TagI].
Proof. by vm_compute. Qed.

(** ** The example file, read *)

(** Reading the example file with the BIOUL scheme creates two list
    objects per sentence, the loop's and the recoder's, and each instance
    holds the recoded one.  The second row has no references, so its text
    "nan" matches the placeholder. *)
Example read_example_heap :
  let run := _read example_cached_path example_read_csv
               example_split_sentences example_tokenize
               (example_reader (py "BIOUL")) (py "cases.csv") example_start in
  (labels ∘ fields_tags <$> default [] (match run.1 with
                                         | Ok insts => Some insts
                                         | Raise _ => None
                                         end)) = [1; 3]
  ∧ log run.2 = [ReadCsv (py "cases.csv")]
  ∧ heap run.2 !! 1
    = Some ([TagO; TagO; TagO; TagO; TagB; TagI; TagI; TagI; TagL]
            ++ replicate 6 TagO)
  ∧ heap run.2 !! 2 = Some [TagB; TagI; TagI]
  ∧ heap run.2 !! 3 = Some [TagB; TagI; TagL].
Proof. by vm_compute. Qed.

(** * Further properties of the code *)

(** ** The labelling loop ([_read], lines 121-126) *)

Lemma tag_at_O refs texts k :
  tag_at refs texts k = TagO ↔
  ¬ ∃ i j, i ≤ k < j ∧ matching refs texts i j.
Proof.
  unfold tag_at.
  destruct (starts_span refs texts k) eqn:Hs.
  { split; [done|]. intros Hno. exfalso. apply Hno.
    apply starts_span_true in Hs as (j & Hj). exists k, j.
    split; [destruct Hj; lia | done]. }
  destruct (inside_span refs texts k k) eqn:Hi.
  { split; [done|]. intros Hno. exfalso. apply Hno.
    apply inside_span_true in Hi as (i & j & Hikj & Hij). exists i, j.
    split; [lia | done]. }
  split; [|done]. intros _ (i & j & Hikj & Hij).
  destruct (decide (i = k)) as [->|Hne].
  - assert (starts_span refs texts k = true); [|congruence].
    apply starts_span_true. by exists j.
  - assert (inside_span refs texts k k = true); [|congruence].
    apply inside_span_true. exists i, j. split; [lia | done].
Qed.

Lemma matching_lt refs texts i j : matching refs texts i j → i < length texts.
Proof. intros [? _]. lia. Qed.

(** Property X1.  The tags of a sentence in closed form, whatever spans
    overlap: a token is tagged "B" exactly when a matching span starts at
    it, even inside a longer matching span; "I" exactly when none starts at
    it and it lies inside one; and "O" exactly when no matching span
    contains it. *)
Theorem label_tokens_closed_form refs tokens :
  ∃ tags,
    label_tokens refs tokens = Ok tags
    ∧ ∀ k,
        (tags !! k = Some TagB ↔ ∃ j, matching refs (text <$> tokens) k j)
        ∧ (tags !! k = Some TagI ↔
           (¬ ∃ j, matching refs (text <$> tokens) k j)
           ∧ ∃ i j, i < k < j ∧ matching refs (text <$> tokens) i j)
        ∧ (tags !! k = Some TagO ↔
           k < length tokens
           ∧ ¬ ∃ i j, i ≤ k < j ∧ matching refs (text <$> tokens) i j).
Proof.
  exists (reference_tags refs (text <$> tokens)).
  split; [apply label_tokens_fold|]. intros k.
  set (texts := text <$> tokens).
  assert (Hn : length texts = length tokens) by apply length_fmap.
  destruct (decide (k < length texts)) as [Hk|Hk].
  - rewrite reference_tags_lookup by done.
    split; [|split].
    + rewrite <- tag_at_B. split; [by intros [= ->] | by intros ->].
    + rewrite <- starts_span_true.
      split.
      * intros [= Ht]. apply tag_at_I in Ht as [Hs ?]. split; [|done].
        by rewrite Hs.
      * intros [Hs ?]. f_equal. apply tag_at_I. split; [|done].
        by destruct (starts_span refs texts k).
    + rewrite <- tag_at_O. split.
      * intros [= ->]. split; [lia | done].
      * by intros [_ ->].
  - rewrite lookup_ge_None_2 by (rewrite length_reference_tags; lia).
    split; [|split]; (split; [done|]).
    + intros (j & Hj%matching_lt). lia.
    + intros (_ & i & j & Hikj & [? _]). lia.
    + intros [? _]. lia.
Qed.

(** Property X2.  No matching span, no tag: the loop returns "O" for every
    token exactly when no span of the sentence matches the reference
    list. *)
Theorem label_tokens_all_outside refs tokens :
  label_tokens refs tokens = Ok (replicate (length tokens) TagO)
  ↔ matching_spans refs (text <$> tokens) = [].
Proof.
  rewrite label_tokens_fold. set (texts := text <$> tokens).
  assert (Hn : length texts = length tokens) by apply length_fmap.
  split.
  - intros [= Htags].
    destruct (matching_spans refs texts) as [|[i j] spans] eqn:Hspans;
      [done|exfalso].
    assert (Hij : matching refs texts i j).
    { apply matching_spans_elem. rewrite Hspans. by left. }
    assert (Hi : tag_at refs texts i = TagB) by (apply tag_at_B; by exists j).
    pose proof (reference_tags_lookup refs texts i (matching_lt _ _ _ _ Hij))
      as Hlook.
    rewrite Htags, Hi in Hlook.
    rewrite lookup_replicate_2 in Hlook; [done|].
    apply matching_lt in Hij. lia.
  - intros Hspans. f_equal. apply list_eq. intros k.
    destruct (decide (k < length texts)) as [Hk|Hk].
    + rewrite reference_tags_lookup, lookup_replicate_2 by lia. f_equal.
      apply tag_at_O. intros (i & j & _ & Hij).
      apply matching_spans_elem in Hij. rewrite Hspans in Hij.
      by apply elem_of_nil in Hij.
    + rewrite !lookup_ge_None_2; [done| |].
      * rewrite length_replicate. lia.
      * rewrite length_reference_tags. lia.
Qed.

Lemma reference_tags_ext refs refs' texts :
  (∀ i j, is_reference refs texts i j = is_reference refs' texts i j) →
  reference_tags refs texts = reference_tags refs' texts.
Proof.
  intros Hext. unfold reference_tags. apply foldl_ext.
  intros tags [i j]. unfold mark. cbn [fst snd]. by rewrite Hext.
Qed.

(** Property X3.  Only membership in the reference list counts: two lists
    with the same entries, in any order and with any repetitions, give the
    same tags. *)
Theorem label_tokens_same_entries refs refs' tokens :
  (∀ r, r ∈ refs ↔ r ∈ refs') →
  label_tokens refs tokens = label_tokens refs' tokens.
Proof.
  intros Hsame. rewrite !label_tokens_fold. f_equal.
  apply reference_tags_ext. intros i j. unfold is_reference.
  apply bool_decide_ext, Hsame.
Qed.

Lemma label_tokens_same_entries_witness :
  label_tokens [py "ab"; py "c"; py "ab"]
               [tok (py "a"); tok (py "b"); tok (py "c")]
  = label_tokens [py "c"; py "ab"]
                 [tok (py "a"); tok (py "b"); tok (py "c")].
Proof.
  apply (label_tokens_same_entries [py "ab"; py "c"; py "ab"]
           [py "c"; py "ab"]).
  intros r. rewrite !elem_of_cons, !elem_of_nil. tauto.
Defined.

Lemma matching_subseteq refs refs' texts i j :
  refs ⊆ refs' → matching refs texts i j → matching refs' texts i j.
Proof.
  intros Hsub [Hij Href]. split; [done|]. unfold is_reference in *.
  apply bool_decide_eq_true. apply bool_decide_eq_true in Href. by apply Hsub.
Qed.

(** Property X4.  More references never untag a token: when every entry of
    one reference list is in another, a token the first list tags "B" is
    tagged "B" by the second, and one the first tags "I" is tagged "I" or
    "B" by the second. *)
Theorem label_tokens_more_references refs refs' tokens :
  refs ⊆ refs' →
  ∃ tags tags',
    label_tokens refs tokens = Ok tags
    ∧ label_tokens refs' tokens = Ok tags'
    ∧ ∀ k,
        (tags !! k = Some TagB → tags' !! k = Some TagB)
        ∧ (tags !! k = Some TagI →
           tags' !! k = Some TagI ∨ tags' !! k = Some TagB).
Proof.
  intros Hsub. eexists _, _.
  split; [apply label_tokens_fold|]. split; [apply label_tokens_fold|].
  intros k. set (texts := text <$> tokens).
  split; intros Hk.
  - assert (Hlt : k < length texts).
    { apply lookup_lt_Some in Hk. by rewrite length_reference_tags in Hk. }
    rewrite reference_tags_lookup in * by done. injection Hk as Hk. f_equal.
    apply tag_at_B in Hk as (j & Hj). apply tag_at_B. exists j.
    by eapply matching_subseteq.
  - assert (Hlt : k < length texts).
    { apply lookup_lt_Some in Hk. by rewrite length_reference_tags in Hk. }
    rewrite reference_tags_lookup in * by done. injection Hk as Hk.
    apply tag_at_I in Hk as (_ & i & j & Hikj & Hij).
    destruct (tag_at refs' texts k) eqn:Hk'; auto; exfalso.
    + apply tag_at_O in Hk'. apply Hk'. exists i, j.
      split; [lia|]. by eapply matching_subseteq.
    + unfold tag_at in Hk'. by repeat case_match.
    + unfold tag_at in Hk'. by repeat case_match.
Qed.

Lemma label_tokens_more_references_witness :
  ∃ tags tags',
    label_tokens [py "abc"] [tok (py "a"); tok (py "b"); tok (py "c")]
    = Ok tags
    ∧ label_tokens [py "abc"; py "b"]
                   [tok (py "a"); tok (py "b"); tok (py "c")]
      = Ok tags'
    ∧ ∀ k,
        (tags !! k = Some TagB → tags' !! k = Some TagB)
        ∧ (tags !! k = Some TagI →
           tags' !! k = Some TagI ∨ tags' !! k = Some TagB).
Proof.
  apply (label_tokens_more_references [py "abc"] [py "abc"; py "b"]).
  intros r Hr. apply list_elem_of_singleton in Hr as ->. by left.
Defined.

(** Property X5.  When the matching spans of a sentence do not overlap one
    another, none of them is lost: each is a maximal span of the tags, a
    "B" at its start, "I" up to its end and no "I" right after it. *)
Theorem matching_span_is_maximal refs tokens k e :
  (∀ i j i' j',
     matching refs (text <$> tokens) i j →
     matching refs (text <$> tokens) i' j' →
     (i = i' ∧ j = j') ∨ j ≤ i' ∨ j' ≤ i) →
  matching refs (text <$> tokens) k e →
  ∃ tags, label_tokens refs tokens = Ok tags ∧ maximal_span tags k e.
Proof.
  intros Hdisjoint Hke. exists (reference_tags refs (text <$> tokens)).
  split; [apply label_tokens_fold|]. set (texts := text <$> tokens) in *.
  pose proof Hke as [Hbounds _].
  unfold maximal_span. rewrite length_reference_tags.
  split; [|split; [done|split]].
  - rewrite reference_tags_lookup by lia. f_equal. apply tag_at_B.
    by exists e.
  - intros m Hm. rewrite reference_tags_lookup by lia. f_equal.
    apply tag_at_I. split; [|by exists k, e].
    destruct (starts_span refs texts m) eqn:Hs; [exfalso|done].
    apply starts_span_true in Hs as (j' & Hmj').
    destruct (Hdisjoint _ _ _ _ Hke Hmj') as [[? ?]|[?|?]];
      destruct Hmj'; lia.
  - intros He.
    assert (Hlt : e < length texts).
    { apply lookup_lt_Some in He. by rewrite length_reference_tags in He. }
    rewrite reference_tags_lookup in He by done. injection He as He.
    apply tag_at_I in He as (_ & i' & j' & Hiej & Hij').
    destruct (Hdisjoint _ _ _ _ Hke Hij') as [[? ?]|[?|?]]; lia.
Qed.

Lemma matching_span_is_maximal_witness :
  ∃ tags,
    label_tokens (parse_references (CellStr (py "《民法典》")))
                 civil_code_tokens = Ok tags
    ∧ maximal_span tags 2 5.
Proof.
  apply (matching_span_is_maximal
           (parse_references (CellStr (py "《民法典》"))) civil_code_tokens).
  - intros i j i' j' H1 H2. left.
    destruct (matching_spans_single _ _ _ _ civil_code_matching_spans _ _ H1).
    destruct (matching_spans_single _ _ _ _ civil_code_matching_spans _ _ H2).
    lia.
  - apply matching_spans_elem. rewrite civil_code_matching_spans. by left.
Defined.

Lemma slice_app_l {A : Type} (l1 l2 : list A) i j :
  j ≤ length l1 → slice (l1 ++ l2) i j = slice l1 i j.
Proof. intros Hj. unfold slice. by rewrite take_app_le. Qed.

Lemma slice_app_r {A : Type} (l1 l2 : list A) i j :
  length l1 ≤ i →
  slice (l1 ++ l2) i j = slice l2 (i - length l1) (j - length l1).
Proof.
  intros Hi. unfold slice. rewrite take_app, drop_app.
  rewrite (drop_ge (take j l1)) by (rewrite length_take; lia).
  cbn [app]. rewrite length_take.
  destruct (decide (length l1 ≤ j)) as [Hj|Hj].
  - by rewrite Nat.min_r by lia.
  - replace (j - length l1) with 0 by lia. by rewrite take_0, !drop_nil.
Qed.

Lemma matching_app_l refs texts1 texts2 i j :
  j ≤ length texts1 →
  matching refs (texts1 ++ texts2) i j ↔ matching refs texts1 i j.
Proof.
  intros Hj. unfold matching, is_reference.
  rewrite slice_app_l, length_app by done. intuition lia.
Qed.

Lemma matching_app_r refs texts1 texts2 i j :
  length texts1 ≤ i →
  matching refs (texts1 ++ texts2) i j
  ↔ matching refs texts2 (i - length texts1) (j - length texts1).
Proof.
  intros Hi. unfold matching, is_reference.
  rewrite slice_app_r, length_app by done. intuition lia.
Qed.

Lemma tag_at_ext refs texts k refs' texts' k' :
  ((∃ j, matching refs texts k j) ↔ (∃ j, matching refs' texts' k' j)) →
  ((∃ i j, i < k < j ∧ matching refs texts i j)
   ↔ (∃ i j, i < k' < j ∧ matching refs' texts' i j)) →
  tag_at refs texts k = tag_at refs' texts' k'.
Proof.
  rewrite <- !starts_span_true, <- !inside_span_true. unfold tag_at.
  intros Hs Hi.
  destruct (starts_span refs texts k), (starts_span refs' texts' k'),
    (inside_span refs texts k k), (inside_span refs' texts' k' k');
    intuition congruence.
Qed.

(** Property X6.  Sentences compose where no match crosses: when no
    matching span of a token list begins before a position and ends after
    it, the tags of the list are the tags of the part before the position
    followed by the tags of the part after it. *)
Theorem label_tokens_app refs pre post :
  (∀ i j, matching refs (text <$> pre ++ post) i j →
          j ≤ length pre ∨ length pre ≤ i) →
  ∃ tags1 tags2,
    label_tokens refs pre = Ok tags1
    ∧ label_tokens refs post = Ok tags2
    ∧ label_tokens refs (pre ++ post) = Ok (tags1 ++ tags2).
Proof.
  intros Hcross. eexists _, _.
  split; [apply label_tokens_fold|]. split; [apply label_tokens_fold|].
  rewrite label_tokens_fold. f_equal. rewrite fmap_app in *.
  set (A := text <$> pre) in *. set (B := text <$> post) in *.
  assert (HA : length A = length pre) by apply length_fmap.
  rewrite <- HA in Hcross.
  apply list_eq. intros k.
  destruct (decide (k < length A)) as [Hk|Hk].
  - rewrite lookup_app_l by (by rewrite length_reference_tags).
    rewrite !reference_tags_lookup by (rewrite ?length_app; lia). f_equal.
    apply tag_at_ext.
    + split; intros (j & Hj).
      * exists j. apply (matching_app_l refs A B k j); [|done].
        destruct (Hcross _ _ Hj); lia.
      * exists j. apply (matching_app_l refs A B k j); [|done].
        destruct Hj. lia.
    + split; intros (i & j & Hikj & Hij).
      * exists i, j. split; [done|].
        apply (matching_app_l refs A B i j); [|done].
        destruct (Hcross _ _ Hij); lia.
      * exists i, j. split; [done|].
        apply (matching_app_l refs A B i j); [|done]. destruct Hij. lia.
  - rewrite lookup_app_r by (rewrite length_reference_tags; lia).
    rewrite length_reference_tags.
    destruct (decide (k < length A + length B)) as [Hk'|Hk'].
    + rewrite !reference_tags_lookup by (rewrite ?length_app; lia). f_equal.
      apply tag_at_ext.
      * split; intros (j & Hj).
        -- exists (j - length A).
           apply (matching_app_r refs A B k j); [lia | done].
        -- exists (j + length A).
           apply (matching_app_r refs A B k (j + length A)); [lia|].
           by replace (j + length A - length A) with j by lia.
      * split; intros (i & j & Hikj & Hij).
        -- exists (i - length A), (j - length A).
           destruct (Hcross _ _ Hij); [lia|].
           split; [lia|]. by apply (matching_app_r refs A B i j).
        -- exists (i + length A), (j + length A). split; [lia|].
           apply (matching_app_r refs A B (i + length A) (j + length A));
             [lia|].
           replace (i + length A - length A) with i by lia.
           by replace (j + length A - length A) with j by lia.
    + rewrite !lookup_ge_None_2; [done| |].
      * rewrite length_reference_tags. lia.
      * rewrite length_reference_tags, length_app. lia.
Qed.

Lemma label_tokens_app_witness :
  ∃ tags1 tags2,
    label_tokens [py "ab"; py "c"] [tok (py "a"); tok (py "b")] = Ok tags1
    ∧ label_tokens [py "ab"; py "c"] [tok (py "c"); tok (py "d")] = Ok tags2
    ∧ label_tokens [py "ab"; py "c"]
        ([tok (py "a"); tok (py "b")] ++ [tok (py "c"); tok (py "d")])
      = Ok (tags1 ++ tags2).
Proof.
  apply (label_tokens_app [py "ab"; py "c"] [tok (py "a"); tok (py "b")]
           [tok (py "c"); tok (py "d")]).
  intros i j Hij. apply matching_spans_elem in Hij.
  assert (Hspans :
    matching_spans [py "ab"; py "c"]
      (text <$> [tok (py "a"); tok (py "b")] ++ [tok (py "c"); tok (py "d")])
    = [(0, 2); (2, 3)]) by (by vm_compute).
  rewrite Hspans in Hij.
  apply elem_of_cons in Hij as [[= -> ->]|Hij]; [left; cbn; lia|].
  apply list_elem_of_singleton in Hij as [= -> ->]. right. cbn. lia.
Defined.

(** ** The reference-list parser ([_read], line 118) *)

Lemma length_split sep s :
  length (split sep s) = S (length (filter (λ x, x = sep) s)).
Proof.
  induction s as [|c s IH]; [done|]. cbn [split].
  rewrite (filter_cons (λ x, x = sep)).
  pose proof (split_nonempty sep s) as Hne.
  case_bool_decide; case_decide; try done.
  - cbn. by rewrite IH.
  - destruct (split sep s); [done|]. exact IH.
Qed.

(** Property X7.  The parser never returns an empty list, not even for an
    empty cell: it returns one candidate more than there are separators
    left in the cell once it is stripped and its bars are removed. *)
Theorem parse_references_length c :
  parse_references c ≠ []
  ∧ length (parse_references c)
    = S (length (filter (λ x, x = SEP)
                        (filter (λ x, x ≠ BAR)
                                (strip (py "；") (str_of_cell c)))))
  ∧ parse_references (CellStr (py "")) = [py ""].
Proof.
  change (py "；") with [SEP]. unfold parse_references.
  split; [apply split_nonempty|]. split; [|done].
  by rewrite length_split, (replace_empty BAR).
Qed.

Lemma lstrip_replicate chars c n s :
  c ∈ chars → lstrip chars (replicate n c ++ s) = lstrip chars s.
Proof.
  intros Hc. induction n as [|n IH]; [done|]. cbn.
  by rewrite bool_decide_eq_true_2.
Qed.

Lemma strip_replicate chars c a b s :
  c ∈ chars →
  strip chars (replicate a c ++ s ++ replicate b c) = strip chars s.
Proof.
  intros Hc. induction b as [|b IH].
  - rewrite app_nil_r. unfold strip. by rewrite lstrip_replicate.
  - rewrite replicate_S_end, !app_assoc, strip_snoc by done.
    by rewrite <- app_assoc.
Qed.

(** Property X8.  The strip works at both ends and on runs: any number of
    separators before the cell's text and any number after it leave the
    parsed list as it is. *)
Theorem parse_references_outer_separators a b s :
  parse_references (CellStr (replicate a SEP ++ s ++ replicate b SEP))
  = parse_references (CellStr s).
Proof.
  unfold parse_references. cbn [str_of_cell].
  rewrite strip_replicate; [done | by left].
Qed.

Lemma split_absent sep p : sep ∉ p → split sep p = [p].
Proof.
  induction p as [|c p IH]; [done|]. intros Hc. cbn [split].
  rewrite bool_decide_eq_false_2 by (intros ->; apply Hc; by left).
  rewrite IH; [done|]. intros ?. apply Hc. by right.
Qed.

Lemma split_app_sep sep p rest :
  sep ∉ p → split sep (p ++ sep :: rest) = p :: split sep rest.
Proof.
  induction p as [|c p IH]; intros Hc.
  - cbn. by rewrite bool_decide_eq_true_2.
  - cbn [app split].
    rewrite bool_decide_eq_false_2 by (intros ->; apply Hc; by left).
    rewrite IH; [done|]. intros ?. apply Hc. by right.
Qed.

Lemma split_of_join sep parts :
  parts ≠ [] → Forall (λ p, sep ∉ p) parts →
  split sep (join [sep] parts) = parts.
Proof.
  intros Hne Hall. induction Hall as [|p ps Hp Hps IH]; [done|].
  destruct ps as [|q ps]; [by apply split_absent|].
  rewrite join_cons. cbn [app]. rewrite split_app_sep by done.
  by rewrite IH.
Qed.

Lemma elem_of_join sep parts x :
  x ∈ join [sep] parts → x = sep ∨ ∃ p, p ∈ parts ∧ x ∈ p.
Proof.
  induction parts as [|p [|q ps] IH].
  - by intros ?%elem_of_nil.
  - intros Hx. right. exists p. split; [by left | done].
  - rewrite join_cons. cbn [app]. rewrite elem_of_app, elem_of_cons.
    intros [Hx|[->|Hx]]; [right|by left|].
    + exists p. split; [by left | done].
    + destruct (IH Hx) as [->|(p' & Hp' & Hx')]; [by left|right].
      exists p'. split; [by right | done].
Qed.

Lemma head_join sep p parts : p ≠ [] → head (join sep (p :: parts)) = head p.
Proof. intros Hp. destruct p; [done|]. by destruct parts. Qed.

Lemma join_ends sep parts q :
  last parts = Some q → ∃ before, join sep parts = before ++ q.
Proof.
  induction parts as [|p [|p' ps] IH]; [done| |].
  - intros [= ->]. by exists [].
  - rewrite last_cons_cons. intros Hlast.
    destruct (IH Hlast) as (before & Hjoin).
    exists (p ++ sep ++ before). by rewrite join_cons, Hjoin, !app_assoc.
Qed.

Lemma last_join sep parts q c :
  last parts = Some q → last q = Some c → last (join sep parts) = Some c.
Proof.
  intros Hlast Hq. destruct (join_ends sep parts q Hlast) as (before & ->).
  apply last_Some in Hq as (q' & ->).
  by rewrite app_assoc, last_snoc.
Qed.

Lemma lstrip_id chars s :
  (∀ c, head s = Some c → c ∉ chars) → lstrip chars s = s.
Proof.
  destruct s as [|c s]; [done|]. intros Hc. cbn.
  by rewrite bool_decide_eq_false_2 by (by apply Hc).
Qed.

Lemma strip_id chars s :
  (∀ c, head s = Some c → c ∉ chars) →
  (∀ c, last s = Some c → c ∉ chars) →
  strip chars s = s.
Proof.
  intros Hhead Hlast. unfold strip, rstrip. rewrite (lstrip_id chars s) by done.
  rewrite lstrip_id; [apply reverse_involutive|].
  intros c. rewrite head_reverse. apply Hlast.
Qed.

Lemma replace_absent old new s : old ∉ s → replace old new s = s.
Proof.
  induction s as [|c s IH]; [done|]. intros Hc. cbn [replace].
  rewrite bool_decide_eq_false_2 by (intros ->; apply Hc; by left).
  cbn. rewrite IH; [done|]. intros ?. apply Hc. by right.
Qed.

(** Property X9.  Parsing undoes joining: for a list of candidates without
    separators and bars in them, whose first and last candidates are not
    empty, the cell made by joining them with the separator parses back to
    the list. *)
Theorem parse_references_of_join parts :
  Forall (λ p, (SEP ∉ p) ∧ (BAR ∉ p)) parts →
  (∃ p, head parts = Some p ∧ p ≠ []) →
  (∃ q, last parts = Some q ∧ q ≠ []) →
  parse_references (CellStr (join (py "；") parts)) = parts.
Proof.
  change (py "；") with [SEP]. intros Hall (p & Hp & Hp_ne) (q & Hq & Hq_ne).
  unfold parse_references. cbn [str_of_cell].
  assert (Hsep : ∀ c r, r ∈ parts → c ∈ r → c ≠ SEP ∧ c ≠ BAR).
  { intros c r Hr Hc. rewrite Forall_forall in Hall.
    destruct (Hall r Hr) as [H1 H2]. split; intros ->; auto. }
  rewrite strip_id.
  - rewrite replace_absent.
    + apply split_of_join; [by destruct parts|].
      eapply Forall_impl; [exact Hall|]. by intros ? [? _].
    + intros [[=]|(r & Hr & Hc)]%elem_of_join.
      by destruct (Hsep _ _ Hr Hc).
  - destruct parts as [|p0 parts]; [done|]. injection Hp as ->.
    rewrite head_join by done. intros c Hc [->|[]%elem_of_nil]%elem_of_cons.
    destruct (Hsep SEP p); [by left | by apply head_Some_elem_of|done].
  - intros c Hc [->|[]%elem_of_nil]%elem_of_cons.
    destruct (last q) as [c'|] eqn:Hlast; [|by apply last_None in Hlast].
    rewrite (last_join _ _ _ _ Hq Hlast) in Hc. injection Hc as ->.
    destruct (Hsep SEP q); [by eapply last_Some_elem_of|
                            by eapply last_Some_elem_of|done].
Qed.

Lemma parse_references_of_join_witness :
  parse_references
    (CellStr (join (py "；") [py "《民法典》"; py ""; py "合同"]))
  = [py "《民法典》"; py ""; py "合同"].
Proof.
  apply (parse_references_of_join [py "《民法典》"; py ""; py "合同"]).
  - repeat (apply Forall_cons; split;
            [split; vm_compute; intros H;
             repeat (apply elem_of_cons in H as [H|H]; [done|]);
             by apply elem_of_nil in H|]).
    apply Forall_nil. done.
  - exists (py "《民法典》"). by split.
  - exists (py "合同"). by split.
Defined.

Lemma lstrip_app chars s t :
  lstrip chars (s ++ t)
  = match lstrip chars s with [] => lstrip chars t | l => l ++ t end.
Proof.
  induction s as [|c s IH]; cbn; [by destruct (lstrip chars t)|].
  by case_bool_decide.
Qed.

Lemma rstrip_snoc_absent chars s c :
  c ∉ chars → rstrip chars (s ++ [c]) = s ++ [c].
Proof.
  intros Hc. unfold rstrip. rewrite reverse_snoc. cbn [lstrip].
  rewrite bool_decide_eq_false_2 by done.
  by rewrite reverse_cons, reverse_involutive.
Qed.

Lemma replace_app old new s t :
  replace old new (s ++ t) = replace old new s ++ replace old new t.
Proof.
  induction s as [|c s IH]; [done|]. cbn. by rewrite IH, app_assoc.
Qed.

Lemma split_snoc_sep sep s : split sep (s ++ [sep]) = split sep s ++ [[]].
Proof.
  induction s as [|c s IH]; cbn [app split].
  - by rewrite bool_decide_eq_true_2.
  - rewrite IH. pose proof (split_nonempty sep s) as Hne.
    case_bool_decide; [done|]. by destruct (split sep s).
Qed.

(** Property X10.  The strip runs before the bars are removed, so a
    separator that only bars follow is not stripped: a cell that ends in a
    separator and a bar always parses to a list whose last candidate is the
    empty text. *)
Theorem parse_references_separator_then_bar s :
  last (parse_references (CellStr (s ++ py "；|"))) = Some (py "").
Proof.
  change (py "；|") with [SEP; BAR]. change (py "") with (@nil char).
  unfold parse_references, strip. cbn [str_of_cell].
  rewrite lstrip_app.
  assert (Hbar : BAR ∉ [SEP]).
  { intros [[=]|[]%elem_of_nil]%elem_of_cons. }
  destruct (lstrip [SEP] s) as [|c l] eqn:Hl.
  - change (lstrip [SEP] [SEP; BAR]) with ([] ++ [BAR]).
    by rewrite rstrip_snoc_absent.
  - change ((c :: l) ++ [SEP; BAR]) with ((c :: l) ++ [SEP] ++ [BAR]).
    rewrite app_assoc, rstrip_snoc_absent by done.
    rewrite !replace_app. change (replace BAR [] [BAR]) with (@nil char).
    change (replace BAR [] [SEP]) with [SEP].
    by rewrite app_nil_r, split_snoc_sep, last_snoc.
Qed.

(** ** The instance builder ([text_to_instance], lines 129-146) *)

Lemma text_to_instance_exact self tokens a l w :
  _original_coding_scheme self = py "IOB1" →
  heap w !! a = Some l → iob l → length l = length tokens →
  ∃ inst w',
    text_to_instance self tokens (Some a) w = (Ok inst, w')
    ∧ field_tokens (fields_tokens inst) = tokens
    ∧ fields_metadata inst = text <$> tokens
    ∧ log w' = log w
    ∧ if bool_decide (coding_scheme self = Some (py "BIOUL"))
      then labels (fields_tags inst) = length (heap w)
           ∧ ∃ recoded, to_bioul l (py "IOB1") = Ok recoded
                        ∧ heap w' = heap w ++ [recoded]
      else labels (fields_tags inst) = a ∧ w' = w.
Proof.
  intros Horig Ha Hiob Hlen. unfold text_to_instance.
  case_bool_decide as Hscheme.
  - destruct (to_bioul_iob l Hiob) as (out & Hout & Hout_len).
    rewrite Horig.
    cbv [mbind Py_bind load lift alloc new_SequenceLabelField mret Py_ret].
    cbn [heap log]. rewrite Ha, Hout. cbn [heap log].
    rewrite lookup_app_r, Nat.sub_diag by done. cbn [lookup list_lookup].
    rewrite decide_True by (cbn; lia).
    eexists _, _. split; [reflexivity|].
    cbn [log heap fields_tokens field_tokens fields_tags labels
         fields_metadata].
    repeat split. by exists out.
  - cbv [mbind Py_bind load new_SequenceLabelField mret Py_ret].
    rewrite Ha. rewrite decide_True by (cbn; lia).
    eexists _, _. split; [reflexivity|].
    by cbn [log heap fields_tokens field_tokens fields_tags labels
            fields_metadata].
Qed.


(** Property X11.  For a reader with the original scheme IOB1 and a list
    object over "O", "B", "I" with one tag per token, [text_to_instance]
    succeeds; the instance carries the tokens and, as metadata, their texts.
    With a coding scheme other than BIOUL the instance holds the caller's
    own list object and nothing in the world changes; with BIOUL it holds a
    new list object, the recoding, the only object created, and the
    caller's list stays as it was. *)
Theorem text_to_instance_label_object self tokens a l w :
  _original_coding_scheme self = py "IOB1" →
  heap w !! a = Some l → iob l → length l = length tokens →
  ∃ inst w',
    text_to_instance self tokens (Some a) w = (Ok inst, w')
    ∧ field_tokens (fields_tokens inst) = tokens
    ∧ fields_metadata inst = text <$> tokens
    ∧ log w' = log w
    ∧ if bool_decide (coding_scheme self = Some (py "BIOUL"))
      then labels (fields_tags inst) = length (heap w)
           ∧ ∃ recoded, to_bioul l (py "IOB1") = Ok recoded
                        ∧ heap w' = heap w ++ [recoded]
      else labels (fields_tags inst) = a ∧ w' = w.
Proof. apply text_to_instance_exact. Qed.

Lemma text_to_instance_label_object_witness :
  ∃ inst w',
    text_to_instance (example_reader (py "BIOUL")) civil_code_tokens (Some 0)
      (World [] [[TagO; TagO; TagB; TagI; TagI; TagO; TagO; TagO; TagO]])
    = (Ok inst, w')
    ∧ field_tokens (fields_tokens inst) = civil_code_tokens
    ∧ fields_metadata inst = text <$> civil_code_tokens
    ∧ log w' = []
    ∧ if bool_decide (coding_scheme (example_reader (py "BIOUL"))
                      = Some (py "BIOUL"))
      then labels (fields_tags inst) = 1
           ∧ ∃ recoded,
               to_bioul [TagO; TagO; TagB; TagI; TagI; TagO; TagO; TagO; TagO]
                        (py "IOB1") = Ok recoded
               ∧ heap w'
                 = [[TagO; TagO; TagB; TagI; TagI; TagO; TagO; TagO; TagO]]
                   ++ [recoded]
      else labels (fields_tags inst) = 0
           ∧ w' = World [] [[TagO; TagO; TagB; TagI; TagI; TagO; TagO; TagO;
                             TagO]].
Proof.
  apply (text_to_instance_label_object (example_reader (py "BIOUL"))
           civil_code_tokens 0
           [TagO; TagO; TagB; TagI; TagI; TagO; TagO; TagO; TagO]
           (World [] [[TagO; TagO; TagB; TagI; TagI; TagO; TagO; TagO;
                       TagO]])).
  - reflexivity.
  - reflexivity.
  - unfold iob. repeat (apply Forall_cons; split; [tauto|]). apply Forall_nil.
    done.
  - reflexivity.
Defined.

(** ** Reading a file ([_read], lines 110-127) *)

Section read_resources.
Context (cached_path : str → str) (read_csv : str → result (list Row))
        (split_sentences : str → list str) (tokenize : str → list Token).

(** What the loops of [_read] keep true of the instances yielded so far:
    their list objects were created after the start ([lo] objects existed
    then), differ from one another, and each sentence has cost the same
    number of objects. *)
Lemma read_sentence_fresh self refs sentence yielded w lo :
  _original_coding_scheme self = py "IOB1" →
  NoDup (label_addrs yielded) →
  Forall (λ a, lo ≤ a < length (heap w)) (label_addrs yielded) →
  lo ≤ length (heap w) →
  ∃ insts w',
    read_sentence tokenize self refs sentence yielded w = (Ok insts, w')
    ∧ length insts = S (length yielded)
    ∧ log w' = log w
    ∧ length (heap w') = length (heap w) + objects_per_sentence self
    ∧ NoDup (label_addrs insts)
    ∧ Forall (λ a, lo ≤ a < length (heap w')) (label_addrs insts).
Proof.
  intros Horig Hnodup Hall Hlo.
  set (tokens := tokenize sentence).
  set (tags := reference_tags refs (text <$> tokens)).
  set (w1 := World (log w) (heap w ++ [tags])).
  destruct (text_to_instance_exact self tokens (length (heap w)) tags w1)
    as (inst & w' & Hinst & _ & _ & Hlog & Hcase); [done| | | |].
  { cbn. by rewrite lookup_app_r, Nat.sub_diag. }
  { apply reference_tags_iob. }
  { unfold tags. by rewrite length_reference_tags, length_fmap. }
  assert (Haddr : length (heap w) ≤ labels (fields_tags inst)
                  ∧ labels (fields_tags inst) < length (heap w')
                  ∧ length (heap w')
                    = length (heap w) + objects_per_sentence self).
  { unfold objects_per_sentence. destruct (bool_decide _).
    - destruct Hcase as (-> & out & _ & ->). unfold w1. cbn [heap].
      rewrite !length_app. cbn. lia.
    - destruct Hcase as (-> & ->). unfold w1. cbn [heap].
      rewrite !length_app. cbn. lia. }
  destruct Haddr as (Hge & Hlt & Hheap).
  exists (yielded ++ [inst]), w'. split; [|split; [|split; [|split; [|split]]]].
  - unfold read_sentence. erewrite Py_bind_ok; [|reflexivity].
    erewrite Py_bind_ok; [|apply label_fresh_run].
    by erewrite Py_bind_ok; [|exact Hinst].
  - rewrite length_app. cbn. lia.
  - by rewrite Hlog.
  - done.
  - unfold label_addrs. rewrite fmap_app. apply NoDup_app.
    split; [done|]. split; [|apply NoDup_singleton].
    intros a' Ha' ->%list_elem_of_singleton.
    rewrite Forall_forall in Hall. specialize (Hall _ Ha'). cbn in Hall. lia.
  - unfold label_addrs. rewrite fmap_app. apply Forall_app. split.
    + eapply Forall_impl; [exact Hall|]. cbn. intros. lia.
    + apply Forall_singleton. lia.
Qed.

Lemma read_line_fresh self line yielded w lo :
  _original_coding_scheme self = py "IOB1" →
  NoDup (label_addrs yielded) →
  Forall (λ a, lo ≤ a < length (heap w)) (label_addrs yielded) →
  lo ≤ length (heap w) →
  ∃ insts w',
    read_line split_sentences tokenize self line yielded w = (Ok insts, w')
    ∧ length insts
      = length yielded + length (split_sentences (full_text line))
    ∧ log w' = log w
    ∧ length (heap w')
      = length (heap w)
        + objects_per_sentence self
          * length (split_sentences (full_text line))
    ∧ NoDup (label_addrs insts)
    ∧ Forall (λ a, lo ≤ a < length (heap w')) (label_addrs insts).
Proof.
  intros Horig. unfold read_line.
  generalize (parse_references (references_all line)). intros refs.
  generalize (split_sentences (full_text line)). intros sentences.
  revert yielded w.
  induction sentences as [|s sentences IH]; intros yielded w Hnodup Hall Hlo.
  - exists yielded, w. cbn. repeat split; try done; lia.
  - destruct (read_sentence_fresh self refs s yielded w lo Horig Hnodup Hall
                Hlo) as (insts1 & w1 & Hs & Hlen1 & Hlog1 & Hheap1 & Hnd1 & Hall1).
    destruct (IH insts1 w1 Hnd1 Hall1 ltac:(lia))
      as (insts & w' & Hrest & Hlen & Hlog & Hheap & Hnd & Hall').
    exists insts, w'. cbn [for_each]. erewrite Py_bind_ok by exact Hs.
    repeat split; try done; cbn [length]; try lia. congruence.
Qed.

Lemma read_lines_fresh self df yielded w lo :
  _original_coding_scheme self = py "IOB1" →
  NoDup (label_addrs yielded) →
  Forall (λ a, lo ≤ a < length (heap w)) (label_addrs yielded) →
  lo ≤ length (heap w) →
  ∃ insts w',
    for_each df (read_line split_sentences tokenize self) yielded w
    = (Ok insts, w')
    ∧ length insts
      = length yielded + length (sentences_of split_sentences tokenize df)
    ∧ log w' = log w
    ∧ length (heap w')
      = length (heap w)
        + objects_per_sentence self
          * length (sentences_of split_sentences tokenize df)
    ∧ NoDup (label_addrs insts)
    ∧ Forall (λ a, lo ≤ a < length (heap w')) (label_addrs insts).
Proof.
  intros Horig. revert yielded w.
  induction df as [|line df IH]; intros yielded w Hnodup Hall Hlo.
  - exists yielded, w. cbn. repeat split; try done; lia.
  - destruct (read_line_fresh self line yielded w lo Horig Hnodup Hall Hlo)
      as (insts1 & w1 & Hline & Hlen1 & Hlog1 & Hheap1 & Hnd1 & Hall1).
    destruct (IH insts1 w1 Hnd1 Hall1 ltac:(lia))
      as (insts & w' & Hrest & Hlen & Hlog & Hheap & Hnd & Hall').
    exists insts, w'. cbn [for_each]. erewrite Py_bind_ok by exact Hline.
    assert (Hcount :
      length (sentences_of split_sentences tokenize (line :: df))
      = length (split_sentences (full_text line))
        + length (sentences_of split_sentences tokenize df)).
    { unfold sentences_of. cbn [mbind list_bind]. rewrite length_app.
      f_equal. generalize (split_sentences (full_text line)).
      intros l. induction l as [|x l IHl]; [done|]. cbn in *. by rewrite IHl. }
    repeat split; try done; try lia. congruence.
Qed.
End read_resources.

Section read_extras.
Context (cached_path : str → str) (read_csv : str → result (list Row))
        (split_sentences : str → list str) (tokenize : str → list Token).

Lemma read_fresh self file_path df w :
  _original_coding_scheme self = py "IOB1" →
  read_csv (cached_path file_path) = Ok df →
  ∃ insts w',
    _read cached_path read_csv split_sentences tokenize self file_path w
    = (Ok insts, w')
    ∧ length insts = length (sentences_of split_sentences tokenize df)
    ∧ log w' = log w ++ [ReadCsv (cached_path file_path)]
    ∧ length (heap w')
      = length (heap w)
        + objects_per_sentence self
          * length (sentences_of split_sentences tokenize df)
    ∧ NoDup (label_addrs insts)
    ∧ Forall (λ a, length (heap w) ≤ a < length (heap w'))
             (label_addrs insts).
Proof.
  intros Horig Hdf.
  destruct (read_lines_fresh split_sentences tokenize self df []
              (World (log w ++ [ReadCsv (cached_path file_path)]) (heap w))
              (length (heap w)) Horig)
    as (insts & w' & Hrun & Hlen & Hlog & Hheap & Hnd & Hall);
    [apply NoDup_nil_2 | apply Forall_nil_2 | done |].
  exists insts, w'. split; [|done].
  unfold _read. erewrite Py_bind_ok; [|reflexivity].
  erewrite Py_bind_ok; [exact Hrun|]. unfold lift. by rewrite Hdf.
Qed.

(** Property X12.  For a reader the constructor has built and a file the
    csv parser can read, no two instances [_read] yields hold the same list
    object, and none holds a list object that existed before the call: a
    later change to the tags of one instance, or to an older list, cannot
    reach the tags of another instance. *)
Theorem read_instances_share_no_list ti cs ns w0 self w1 file_path df w :
  __init__ ti cs ns w0 = (Ok self, w1) →
  read_csv (cached_path file_path) = Ok df →
  ∃ insts w',
    _read cached_path read_csv split_sentences tokenize self file_path w
    = (Ok insts, w')
    ∧ NoDup (label_addrs insts)
    ∧ Forall (λ a, length (heap w) ≤ a < length (heap w'))
             (label_addrs insts).
Proof.
  intros Hinit Hdf. apply init_ok in Hinit as (Horig & _ & _).
  destruct (read_fresh self file_path df w Horig Hdf)
    as (insts & w' & Hrun & _ & _ & _ & Hnd & Hall).
  by exists insts, w'.
Qed.

(** Property X13.  For a reader the constructor has built and a file the
    csv parser can read, [_read] reads the csv file once, at the path the
    cache redirection gives, and loads nothing else; it yields one instance
    per sentence of the file, none for an empty file or a row without
    sentences; and it creates one list object per sentence with the scheme
    IOB1 and two with BIOUL. *)
Theorem read_effects ti cs ns w0 self w1 file_path df w :
  __init__ ti cs ns w0 = (Ok self, w1) →
  read_csv (cached_path file_path) = Ok df →
  ∃ insts w',
    _read cached_path read_csv split_sentences tokenize self file_path w
    = (Ok insts, w')
    ∧ log w' = log w ++ [ReadCsv (cached_path file_path)]
    ∧ length insts = length (sentences_of split_sentences tokenize df)
    ∧ length (sentences_of split_sentences tokenize df)
      = sum_list ((λ line, length (split_sentences (full_text line))) <$> df)
    ∧ length (heap w')
      = length (heap w)
        + (if bool_decide (cs = Some (py "BIOUL")) then 2 else 1)
          * length insts.
Proof.
  intros Hinit Hdf. apply init_ok in Hinit as (Horig & Hcs & _).
  destruct (read_fresh self file_path df w Horig Hdf)
    as (insts & w' & Hrun & Hlen & Hlog & Hheap & _ & _).
  exists insts, w'. split; [done|]. split; [done|]. split; [done|].
  split.
  - clear. induction df as [|line df IH]; [done|].
    unfold sentences_of in *. cbn [mbind list_bind fmap list_fmap sum_list].
    rewrite length_app, IH. f_equal.
    generalize (split_sentences (full_text line)).
    intros l. induction l as [|x l IHl]; [done|]. cbn in *. by rewrite IHl.
  - rewrite Hheap, Hlen. unfold objects_per_sentence. by rewrite Hcs.
Qed.

(** Property X14.  [_read] catches nothing: when the csv parser raises,
    [_read] raises the same exception, after the attempt to read the file
    at the redirected path and before any sentence is split or any list is
    created. *)
Theorem read_propagates_csv_error self file_path e w :
  read_csv (cached_path file_path) = Raise e →
  _read cached_path read_csv split_sentences tokenize self file_path w
  = (Raise e, World (log w ++ [ReadCsv (cached_path file_path)]) (heap w)).
Proof.
  intros Hdf. unfold _read. erewrite Py_bind_ok; [|reflexivity].
  cbv [mbind Py_bind lift]. by rewrite Hdf.
Qed.
End read_extras.

Lemma read_instances_share_no_list_witness :
  ∃ insts w',
    _read example_cached_path example_read_csv example_split_sentences
          example_tokenize (example_reader (py "BIOUL")) (py "cases.csv")
          example_start
    = (Ok insts, w')
    ∧ NoDup (label_addrs insts)
    ∧ Forall (λ a, length (heap example_start) ≤ a < length (heap w'))
             (label_addrs insts).
Proof.
  apply (read_instances_share_no_list example_cached_path example_read_csv
           example_split_sentences example_tokenize
           None (Some (py "BIOUL")) (py "labels") example_start
           (example_reader (py "BIOUL")) example_loaded (py "cases.csv")
           example_df example_start).
  - apply example_init. by right.
  - reflexivity.
Defined.

Lemma read_effects_witness :
  ∃ insts w',
    _read example_cached_path example_read_csv example_split_sentences
          example_tokenize (example_reader (py "IOB1")) (py "cases.csv")
          example_start
    = (Ok insts, w')
    ∧ log w'
      = log example_start
        ++ [ReadCsv (example_cached_path (py "cases.csv"))]
    ∧ length insts
      = length (sentences_of example_split_sentences example_tokenize
                             example_df)
    ∧ length (sentences_of example_split_sentences example_tokenize
                           example_df)
      = sum_list ((λ line, length (example_split_sentences (full_text line)))
                  <$> example_df)
    ∧ length (heap w')
      = length (heap example_start)
        + (if bool_decide (Some (py "IOB1") = Some (py "BIOUL"))
           then 2 else 1) * length insts.
Proof.
  apply (read_effects example_cached_path example_read_csv
           example_split_sentences example_tokenize
           None (Some (py "IOB1")) (py "labels") example_start
           (example_reader (py "IOB1")) example_loaded (py "cases.csv")
           example_df example_start).
  - apply example_init. by left.
  - reflexivity.
Defined.

Lemma read_propagates_csv_error_witness :
  _read example_cached_path example_read_csv example_split_sentences
        example_tokenize (example_reader (py "IOB1")) (py "missing.csv")
        example_start
  = (Raise OSError,
     World (log example_start
            ++ [ReadCsv (example_cached_path (py "missing.csv"))])
           (heap example_start)).
Proof.
  apply (read_propagates_csv_error example_cached_path example_read_csv
           example_split_sentences example_tokenize
           (example_reader (py "IOB1")) (py "missing.csv") OSError
           example_start).
  reflexivity.
Defined.

(** ** Empty candidates and the labelling loop (lines 118 and 124) *)

Lemma foldl_ext_elem {X S : Type} (f g : S → X → S) (xs : list X) (s : S) :
  (∀ s x, x ∈ xs → f s x = g s x) → foldl f s xs = foldl g s xs.
Proof.
  revert s. induction xs as [|x xs IH]; intros s Hfg; [done|].
  cbn. rewrite Hfg by (by left). apply IH. intros s' y Hy. apply Hfg.
  by right.
Qed.

Lemma reference_tags_ext_spans refs refs' texts :
  (∀ i j, i < j ≤ length texts →
          is_reference refs texts i j = is_reference refs' texts i j) →
  reference_tags refs texts = reference_tags refs' texts.
Proof.
  intros Hext. unfold reference_tags. apply foldl_ext_elem.
  intros tags [i j] Hij%elem_of_all_spans. unfold mark. cbn [fst snd].
  by rewrite Hext.
Qed.

Lemma concat_slice_nonempty (texts : list str) i j :
  Forall (λ t, t ≠ []) texts → i < j ≤ length texts →
  concat (slice texts i j) ≠ [].
Proof.
  intros Hall Hij. unfold slice.
  destruct (drop i (take j texts)) as [|t rest] eqn:Hd.
  - apply (f_equal length) in Hd. rewrite length_drop, length_take in Hd.
    cbn in Hd. lia.
  - assert (Ht : t ∈ texts).
    { assert (Hl : drop i (take j texts) !! 0 = Some t) by (by rewrite Hd).
      rewrite lookup_drop, lookup_take_lt in Hl by lia.
      by eapply list_elem_of_lookup_2. }
    rewrite Forall_forall in Hall. specialize (Hall t Ht).
    cbn. by destruct t.
Qed.

(** Property X15.  An empty candidate in the reference list, as an empty
    cell or a separator before a bar gives, tags nothing when no token has
    an empty text: the tags are those without the empty candidate. *)
Theorem label_tokens_empty_candidate refs tokens :
  Forall (λ t, text t ≠ py "") tokens →
  label_tokens (py "" :: refs) tokens = label_tokens refs tokens.
Proof.
  change (py "") with (@nil char). intros Hall.
  rewrite !label_tokens_fold. f_equal. apply reference_tags_ext_spans.
  intros i j Hij. unfold is_reference. apply bool_decide_ext.
  rewrite elem_of_cons. split; [|by right].
  intros [Hnil|?]; [|done]. exfalso.
  apply (concat_slice_nonempty (text <$> tokens) i j); [|done..].
  by apply Forall_fmap.
Qed.

Lemma label_tokens_empty_candidate_witness :
  label_tokens (py "" :: parse_references (CellStr (py "《民法典》")))
               civil_code_tokens
  = label_tokens (parse_references (CellStr (py "《民法典》")))
                 civil_code_tokens.
Proof.
  apply (label_tokens_empty_candidate
           (parse_references (CellStr (py "《民法典》"))) civil_code_tokens).
  unfold civil_code_tokens.
  repeat (apply Forall_cons; split; [by vm_compute|]). apply Forall_nil.
  done.
Defined.
